(** * Missionaries and cannibals: the breadth-first solver of [main.cpp]

    A shallow embedding of [src/main.cpp] and the properties its
    specification states about it.

    - [int] is a 32-bit signed integer.  Values are kept in [Z]; every
      arithmetic result the program stores or tests ([+=], [-=], [m + c])
      goes through [int32], the two's complement wrap-around.
    - A counting loop [for (int m = 0; m <= n; m++)] runs its body for
      [m = 0, 1, ..., n] in this order, and not at all when [n < 0]: the
      list [seqZ 0 (n + 1)]; this needs [n < INT_MAX].  For
      [n >= INT_MAX] the test [m <= n] holds of every [int], so the loop
      has no exit and the function that runs it does not return: [None]
      ([forInt]).
    - [std::queue<State>] is a list (front at the head, [push] appends).
    - [std::unordered_set<State, StateHash>] is a [gset State]: membership
      is decided by [State::operator==], which is structural equality
      ([State_eq_spec]); [StateHash] only places the elements.
    - [std::cout] is the list of what was written so far.
    - The [while] loop of [solveMissionariesCannibals] is iterated by [run]
      for a given number of passes; more passes never change a result
      ([run_mono]), and a pass in which [getValidMoves] does not return
      leaves the run without a result for every number of passes. *)

From Stdlib Require Import ZArith Lia.
From stdpp Require Import base decidable countable list gmap sets strings.

Local Open Scope Z_scope.

(** ** 32-bit integers *)

Definition INT_MAX : Z := 2147483647.
Definition INT_MIN : Z := -2147483648.

(** The value an [int] holds after the mathematical result [z] is stored in
    it. *)
Definition int32 (z : Z) : Z := (z + 2147483648) mod 4294967296 - 2147483648.

Definition is_int (z : Z) : Prop := INT_MIN <= z <= INT_MAX.

(** ** struct State *)

Record State : Type := mkState {
  leftMissionaries : Z;
  leftCannibals : Z;
  rightMissionaries : Z;
  rightCannibals : Z;
  boatOnLeft : bool
}.

(** [State::operator==] *)
Definition State_eq (this other : State) : bool :=
  (leftMissionaries this =? leftMissionaries other) &&
  (leftCannibals this =? leftCannibals other) &&
  (rightMissionaries this =? rightMissionaries other) &&
  (rightCannibals this =? rightCannibals other) &&
  Bool.eqb (boatOnLeft this) (boatOnLeft other).

#[global] Instance State_eq_dec : EqDecision State.
Proof. solve_decision. Defined.

Definition State_to_tuple (s : State) : Z * Z * Z * Z * bool :=
  (leftMissionaries s, leftCannibals s, rightMissionaries s,
   rightCannibals s, boatOnLeft s).

Definition State_of_tuple (t : Z * Z * Z * Z * bool) : State :=
  let '(lm, lc, rm, rc, b) := t in mkState lm lc rm rc b.

#[global] Instance State_countable : Countable State.
Proof.
  apply (inj_countable' State_to_tuple State_of_tuple).
  by intros [].
Defined.

(** ** isSafe *)

Definition isSafe (state : State) : bool :=
  negb (negb (leftMissionaries state =? 0) &&
        (leftMissionaries state <? leftCannibals state)) &&
  negb (negb (rightMissionaries state =? 0) &&
        (rightMissionaries state <? rightCannibals state)).

(** ** appendedMoves *)

(** [newState] after the five assignments of the first branch: [m]
    missionaries and [c] cannibals leave the left bank for the right one. *)
Definition ferryRight (currentState : State) (m c : Z) : State :=
  {| leftMissionaries := int32 (leftMissionaries currentState - m);
     leftCannibals := int32 (leftCannibals currentState - c);
     rightMissionaries := int32 (rightMissionaries currentState + m);
     rightCannibals := int32 (rightCannibals currentState + c);
     boatOnLeft := false |}.

(** [newState] after the five assignments of the second branch. *)
Definition ferryLeft (currentState : State) (m c : Z) : State :=
  {| leftMissionaries := int32 (leftMissionaries currentState + m);
     leftCannibals := int32 (leftCannibals currentState + c);
     rightMissionaries := int32 (rightMissionaries currentState - m);
     rightCannibals := int32 (rightCannibals currentState - c);
     boatOnLeft := true |}.

(** The test [(m + c) >= 1 && (m + c) <= 2]. *)
Definition boatLoad (m c : Z) : bool :=
  (1 <=? int32 (m + c)) && (int32 (m + c) <=? 2).

(** The body of the inner loops: what one pass appends to [moves]. *)
Definition tryMove (newState : State) (m c : Z) : list State :=
  if boatLoad m c then
    if isSafe newState then [newState] else []
  else [].

(** [for (int i = 0; i <= n; i++) body], each pass through [body]
    appending some states to [moves]: the states appended, in loop order.
    [None] when the statement does not end: a pass through the body that
    does not end, or a bound [n >= INT_MAX], which no [int] counter ever
    exceeds, so that the test [i <= n] never fails. *)
Definition forInt (n : Z) (body : Z → option (list State))
    : option (list State) :=
  if INT_MAX <=? n then None
  else mjoin <$> mapM body (seqZ 0 (n + 1)).

(** The vector that the function returns, or [None] when it does not
    return. *)
Definition getValidMoves (currentState : State) : option (list State) :=
  if boatOnLeft currentState then
    forInt (leftMissionaries currentState) (λ m,
      forInt (leftCannibals currentState) (λ c,
        Some (tryMove (ferryRight currentState m c) m c)))
  else
    forInt (rightMissionaries currentState) (λ m,
      forInt (rightCannibals currentState) (λ c,
        Some (tryMove (ferryLeft currentState m c) m c))).

(** ** solveMissionariesCannibals *)

(** The local variables of the function that change while the loop runs,
    and the states printed on [std::cout] so far, oldest first. *)
Record Search : Type := mkSearch {
  statesToExplore : list State;
  exploredStates : gset State;
  printed : list State
}.

(** What one pass through the [while] loop leads to: the function
    returns, the loop goes on, or the pass does not end because the call of
    [getValidMoves] does not return. *)
Inductive Flow : Type :=
  | Return (value : bool) (final : Search)
  | Continue (next : Search)
  | Stuck.

(** The goal test of the loop body. *)
Definition isGoal (currentState : State) : bool :=
  (leftMissionaries currentState =? 0) &&
  (leftCannibals currentState =? 0) &&
  negb (boatOnLeft currentState).

(** The [for (State move : validMoves)] loop: [exploredStates] does not
    change while it runs. *)
Definition pushUnexplored (explored : gset State) (validMoves : list State)
    (queue : list State) : list State :=
  queue ++ filter (λ move, move ∉ explored) validMoves.

(** The loop test followed by one execution of the loop body. *)
Definition iteration (σ : Search) : Flow :=
  match statesToExplore σ with
  | [] => Return false σ
  | currentState :: rest =>
      if decide (currentState ∈ exploredStates σ) then
        Continue (mkSearch rest (exploredStates σ) (printed σ))
      else
        let explored := exploredStates σ ∪ {[currentState]} in
        let out := printed σ ++ [currentState] in
        if isGoal currentState then
          Return true (mkSearch rest explored out)
        else
          match getValidMoves currentState with
          | Some validMoves =>
              Continue (mkSearch (pushUnexplored explored validMoves rest)
                                 explored out)
          | None => Stuck
          end
  end.

(** The state on entry to the loop. *)
Definition start (initialState : State) : Search :=
  mkSearch [initialState] ∅ [].

(** The loop, run for at most [fuel] passes; [None] when the function has
    not returned by then.  A run that gets stuck returns for no [fuel]. *)
Fixpoint run (fuel : nat) (σ : Search) : option (bool * Search) :=
  match fuel with
  | O => None
  | S fuel' =>
      match iteration σ with
      | Return value final => Some (value, final)
      | Continue next => run fuel' next
      | Stuck => None
      end
  end.

Definition solveMissionariesCannibals (fuel : nat) (initialState : State)
    : option bool :=
  fst <$> run fuel (start initialState).

(** ** main *)

(** What [main] writes on [std::cout]: the five fields of a state, or a
    line of text. *)
Inductive Line : Type :=
  | StateLine (s : State)
  | TextLine (text : string).

(** How the process ends: [return status] from [main], or an exception
    of [std::stoi] that nothing catches. *)
Inductive Ending : Type :=
  | Exit (status : Z)
  | Uncaught.

Record Process : Type := mkProcess {
  stdout : list Line;
  ending : Ending
}.

Definition set_leftMissionaries (v : Z) (s : State) : State :=
  mkState v (leftCannibals s) (rightMissionaries s) (rightCannibals s)
          (boatOnLeft s).

Definition set_leftCannibals (v : Z) (s : State) : State :=
  mkState (leftMissionaries s) v (rightMissionaries s) (rightCannibals s)
          (boatOnLeft s).

(** [State initialState;] with the default member initialisers. *)
Definition defaultState : State := mkState 0 0 0 0 true.

Section Main.
(** [std::stoi] belongs to the C++ library: it yields an [int], or throws
    ([None]). *)
Variable stoi : string → option Z.

(** [case 2:] of the switch, entered directly or by falling through. *)
Definition caseTwo (initialState : State) (arg1 : string)
    : State * option Process :=
  match stoi arg1 with
  | None => (initialState, Some (mkProcess [] Uncaught))
  | Some missionaries =>
      let initialState := set_leftMissionaries missionaries initialState in
      if missionaries <? 0 then
        (initialState,
         Some (mkProcess [TextLine "Missionary count cannot be negative."]
                         (Exit 1)))
      else (initialState, None)
  end.

(** The [switch (argc)] statement, [argc] being the length of [argv]:
    the value of [initialState] when control leaves it, and how the
    process ended if it ended there. *)
Definition readArguments (argv : list string) : State * option Process :=
  match argv with
  | [_; arg1; arg2] =>
      match stoi arg2 with
      | None => (defaultState, Some (mkProcess [] Uncaught))
      | Some cannibals =>
          let initialState := set_leftCannibals cannibals defaultState in
          if cannibals <? 0 then
            (initialState,
             Some (mkProcess [TextLine "Cannibal count cannot be negative."]
                             (Exit 1)))
          else caseTwo initialState arg1
      end
  | [_; arg1] => caseTwo defaultState arg1
  | _ =>
      (set_leftCannibals 3 (set_leftMissionaries 3 defaultState), None)
  end.

(** The last lines of [main], after the search has returned [value] and
    left [final] behind. *)
Definition report (value : bool) (final : Search) : Process :=
  mkProcess
    ((StateLine <$> printed final) ++
     [TextLine (if value then "Solution found!" else "No solution exists.")])
    (Exit 0).

Definition main (fuel : nat) (argv : list string) : option Process :=
  match readArguments argv with
  | (_, Some ended) => Some ended
  | (initialState, None) =>
      match run fuel (start initialState) with
      | Some (value, final) => Some (report value final)
      | None => None
      end
  end.
End Main.

(** A parser with the interface of [std::stoi] for plain decimal numerals
    (an optional minus sign, then digits only); it is what [main] is run
    with on concrete command lines below. *)
Fixpoint decimalDigits (acc : Z) (s : string) : option Z :=
  match s with
  | EmptyString => Some acc
  | String a rest =>
      let d := Z.of_nat (Ascii.nat_of_ascii a) - 48 in
      if (0 <=? d) && (d <=? 9) then decimalDigits (10 * acc + d) rest
      else None
  end.

Definition decimalStoi (s : string) : option Z :=
  let parsed :=
    match s with
    | EmptyString => None
    | String a rest =>
        if Ascii.eqb a (Ascii.ascii_of_nat 45) then
          match rest with
          | EmptyString => None
          | _ => Z.opp <$> decimalDigits 0 rest
          end
        else decimalDigits 0 s
    end in
  match parsed with
  | Some z => if (INT_MIN <=? z) && (z <=? INT_MAX) then Some z else None
  | None => None
  end.

(** The scenarios of the specification: 3 and 3, nobody, 4 and 4. *)
Definition scenario1 : State := mkState 3 3 0 0 true.
Definition scenario2 : State := mkState 0 0 0 0 true.
Definition scenario4 : State := mkState 4 4 0 0 true.

(** The variables of the search on [scenario1] after the first pass
    through the loop. *)
Definition afterFirstPass : Search :=
  match iteration (start scenario1) with
  | Return _ final => final
  | Continue next => next
  | Stuck => start scenario1
  end.

(** ** The loops of getValidMoves, when they end *)

(** What the passes through the inner loop body append to [moves], in loop
    order, when [m] and [c] run from 0 to the counts on the boat's bank. *)
Definition appendedMoves (currentState : State) : list State :=
  if boatOnLeft currentState then
    m ← seqZ 0 (leftMissionaries currentState + 1);
    c ← seqZ 0 (leftCannibals currentState + 1);
    tryMove (ferryRight currentState m c) m c
  else
    m ← seqZ 0 (rightMissionaries currentState + 1);
    c ← seqZ 0 (rightCannibals currentState + 1);
    tryMove (ferryLeft currentState m c) m c.

(** The counts on the bank where the boat is. *)
Definition boatMissionaries (s : State) : Z :=
  if boatOnLeft s then leftMissionaries s else rightMissionaries s.

Definition boatCannibals (s : State) : Z :=
  if boatOnLeft s then leftCannibals s else rightCannibals s.

(** Both loops end: the outer loop is not entered, or both bounds are
    below [INT_MAX]. *)
Definition loopsExit (s : State) : Prop :=
  boatMissionaries s < 0 ∨
  (boatMissionaries s < INT_MAX ∧ boatCannibals s < INT_MAX).

(** ** Runs of the search and the states they can hold *)

(** [during initialState σ]: the run of [solveMissionariesCannibals] on
    [initialState] has its variables equal to [σ] on entry to the loop,
    after some pass through it, or when it returns. *)
Inductive during (initialState : State) : Search → Prop :=
  | during_start : during initialState (start initialState)
  | during_continue σ next :
      during initialState σ → iteration σ = Continue next →
      during initialState next
  | during_return σ value final :
      during initialState σ → iteration σ = Return value final →
      during initialState final.

(** One boat trip: [t] is among the successors that [getValidMoves]
    returns for [s].  A goal state is reachable from [s0] when
    [rtc crossing s0] relates [s0] to it. *)
Definition crossing (s t : State) : Prop :=
  ∃ validMoves, getValidMoves s = Some validMoves ∧ t ∈ validMoves.

(** What holds of the loop variables as long as no goal state has been
    met: the initial state is queued or explored, no explored state is a
    goal state, and every successor of an explored state is explored or
    queued. *)
Record Frontier (s0 : State) (σ : Search) : Prop := mkFrontier {
  frontier_initial : s0 ∈ statesToExplore σ ∨ s0 ∈ exploredStates σ;
  frontier_no_goal : ∀ s, s ∈ exploredStates σ → isGoal s = false;
  frontier_closed :
    ∀ s t, s ∈ exploredStates σ → crossing s t →
           t ∈ exploredStates σ ∨ t ∈ statesToExplore σ
}.

(** A state where [lv] of [M] missionaries and [cv] of [C] cannibals are on
    the left bank, as its [int] fields hold it. *)
Definition bankState (M C : Z) (p : Z * Z * bool) : State :=
  let '(lv, cv, b) := p in
  mkState (int32 lv) (int32 cv) (int32 (M - lv)) (int32 (C - cv)) b.

(** All distributions of [M] missionaries and [C] cannibals over the two
    banks, with the boat on either side. *)
Definition bankStates (M C : Z) : list State :=
  bankState M C <$>
    cprod (cprod (seqZ 0 (M + 1)) (seqZ 0 (C + 1))) [true; false].

(** The totals of missionaries and of cannibals are those of [s0]. *)
Definition conserved (s0 t : State) : Prop :=
  leftMissionaries t + rightMissionaries t
    = leftMissionaries s0 + rightMissionaries s0 ∧
  leftCannibals t + rightCannibals t
    = leftCannibals s0 + rightCannibals s0.

(** The same, with the sums computed in [int] as the program would. *)
Definition conserved32 (s0 t : State) : Prop :=
  int32 (leftMissionaries t + rightMissionaries t)
    = int32 (leftMissionaries s0 + rightMissionaries s0) ∧
  int32 (leftCannibals t + rightCannibals t)
    = int32 (leftCannibals s0 + rightCannibals s0).

(** All four counts are values of type [int]. *)
Definition int_counts (s : State) : Prop :=
  is_int (leftMissionaries s) ∧ is_int (leftCannibals s) ∧
  is_int (rightMissionaries s) ∧ is_int (rightCannibals s).

(** What the loop keeps true with respect to a set of states [space]. *)
Record Inv (space : State → Prop) (σ : Search) : Prop := mkInv {
  inv_queue : ∀ t, t ∈ statesToExplore σ → space t;
  inv_explored : ∀ t, t ∈ exploredStates σ → space t;
  inv_printed : ∀ t, t ∈ printed σ ↔ t ∈ exploredStates σ;
  inv_nodup : NoDup (printed σ)
}.

(** ** struct StateHash *)

(** [std::size_t] is taken to be 64 bits wide: the value a [size_t] holds
    after the mathematical result [z] is stored in it. *)
Definition size_t (z : Z) : Z := z mod 18446744073709551616.

Section Hash.
(** [std::hash<int>{}] belongs to the C++ library, which leaves its values
    to the implementation. *)
Variable hashInt : Z → Z.

(** [StateHash::operator()] *)
Definition StateHash (s : State) : Z :=
  let h1 := hashInt (leftMissionaries s) in
  let h2 := hashInt (leftCannibals s) in
  let h3 := hashInt (rightMissionaries s) in
  let h4 := hashInt (rightCannibals s) in
  let h5 := if boatOnLeft s then 1 else 0 in
  Z.lxor (Z.lxor (Z.lxor (Z.lxor h1 (size_t (Z.shiftl h2 1)))
                         (size_t (Z.shiftl h3 2)))
                 (size_t (Z.shiftl h4 3)))
         (size_t (Z.shiftl h5 4)).
End Hash.

(** ** Notions used to state further properties *)

(** The same configuration seen from the other bank: the two banks
    exchanged, and the boat with them. *)
Definition mirror (s : State) : State :=
  mkState (rightMissionaries s) (rightCannibals s)
          (leftMissionaries s) (leftCannibals s) (negb (boatOnLeft s)).

(** One boat trip in plain integers, as the specification words it: [m]
    missionaries and [c] cannibals are subtracted from the bank where the
    boat is and added to the other one, and the boat changes side. *)
Definition transfer (s : State) (m c : Z) : State :=
  if boatOnLeft s then
    mkState (leftMissionaries s - m) (leftCannibals s - c)
            (rightMissionaries s + m) (rightCannibals s + c) false
  else
    mkState (leftMissionaries s + m) (leftCannibals s + c)
            (rightMissionaries s - m) (rightCannibals s - c) true.

(** All four counts are non-negative [int]s whose totals per kind do not
    exceed [INT_MAX]: no addition of the program overflows on such a
    state. *)
Definition plain_counts (s : State) : Prop :=
  0 <= leftMissionaries s ∧ 0 <= leftCannibals s ∧
  0 <= rightMissionaries s ∧ 0 <= rightCannibals s ∧
  leftMissionaries s + rightMissionaries s <= INT_MAX ∧
  leftCannibals s + rightCannibals s <= INT_MAX.

(** What the search has printed after its first pass: the initial state
    first, then safe states only; and what is queued is safe. *)
Definition Traced (s0 : State) (σ : Search) : Prop :=
  ∃ rest, printed σ = s0 :: rest ∧
          Forall (λ t, isSafe t = true) rest ∧
          Forall (λ t, isSafe t = true) (statesToExplore σ).

(** A number of passes through the loop that suffices for [M] missionaries
    and [C] cannibals. *)
Definition passBound (M C : Z) : nat :=
  Z.to_nat (12 * (M + 1) * (C + 1) + 2).

(** What is left to do in a search over the states of [universe]: the
    states queued, and six passes for each state not yet explored. *)
Definition workLeft (universe : gset State) (σ : Search) : nat :=
  (length (statesToExplore σ) + 6 * size (universe ∖ exploredStates σ))%nat.

(** * Properties *)

(** ** Arithmetic of [int32] *)

Lemma int32_id z : is_int z → int32 z = z.
Proof.
  unfold is_int, INT_MIN, INT_MAX, int32. intros Hz.
  rewrite Z.mod_small; lia.
Qed.

Lemma int32_is_int z : is_int (int32 z).
Proof.
  unfold is_int, INT_MIN, INT_MAX, int32.
  pose proof (Z.mod_pos_bound (z + 2147483648) 4294967296). lia.
Qed.

Lemma int32_add_l a b : int32 (int32 a + b) = int32 (a + b).
Proof.
  unfold int32. f_equal.
  replace ((a + 2147483648) mod 4294967296 - 2147483648 + b + 2147483648)
    with ((a + 2147483648) mod 4294967296 + b) by lia.
  rewrite Z.add_mod_idemp_l by lia. f_equal. lia.
Qed.

Lemma int32_add_r a b : int32 (a + int32 b) = int32 (a + b).
Proof. rewrite (Z.add_comm a), int32_add_l. f_equal. lia. Qed.

(** A value that wraps to a non-negative [int] below [2^32 - 1] is that
    [int]. *)
Lemma int32_nonneg_inv z :
  0 <= z <= 2 * INT_MAX → 0 <= int32 z → int32 z = z.
Proof.
  unfold INT_MAX, int32. intros Hz Hw.
  destruct (Z_le_gt_dec z 2147483647) as [Hle|Hgt].
  - rewrite Z.mod_small; lia.
  - exfalso.
    replace (z + 2147483648) with (z - 2147483648 + 1 * 4294967296) in Hw by lia.
    rewrite Z.mod_add in Hw by lia.
    rewrite Z.mod_small in Hw; lia.
Qed.

(** For loop counters, the load test is the one on the plain sum. *)
Lemma boatLoad_spec m c :
  0 <= m <= INT_MAX → 0 <= c <= INT_MAX →
  boatLoad m c = true ↔ 1 <= m + c <= 2.
Proof.
  unfold boatLoad, INT_MAX. intros Hm Hc.
  rewrite andb_true_iff, !Z.leb_le.
  destruct (Z_le_gt_dec (m + c) 2147483647) as [Hle|Hgt].
  - rewrite int32_id by (unfold is_int, INT_MIN, INT_MAX; lia). lia.
  - unfold int32.
    replace (m + c + 2147483648)
      with (m + c - 2147483648 + 1 * 4294967296) by lia.
    rewrite Z.mod_add by lia.
    rewrite Z.mod_small by lia. lia.
Qed.

(** ** The move generator *)

(** A loop whose bound is below [INT_MAX] and whose passes all end. *)
Lemma forInt_exit n body (g : Z → list State) :
  n < INT_MAX →
  (∀ i, 0 <= i <= n → body i = Some (g i)) →
  forInt n body = Some (seqZ 0 (n + 1) ≫= g).
Proof.
  intros Hn Hbody. unfold forInt.
  rewrite (proj2 (Z.leb_gt INT_MAX n) Hn).
  assert (mapM body (seqZ 0 (n + 1)) = Some (g <$> seqZ 0 (n + 1))) as ->.
  { apply mapM_Some_2, Forall2_fmap_r, Forall_Forall2_diag, Forall_forall.
    intros i Hi%elem_of_seqZ. apply Hbody. lia. }
  simpl. f_equal. by rewrite list_join_bind, list_fmap_bind.
Qed.

(** A loop whose test never fails. *)
Lemma forInt_no_exit n body : INT_MAX <= n → forInt n body = None.
Proof.
  intros Hn. unfold forInt. by rewrite (proj2 (Z.leb_le INT_MAX n) Hn).
Qed.

(** A loop whose first pass does not end. *)
Lemma forInt_stuck n body : 0 <= n → body 0 = None → forInt n body = None.
Proof.
  intros Hn Hbody. unfold forInt. destruct (INT_MAX <=? n); [done|].
  assert (mapM body (seqZ 0 (n + 1)) = None) as ->; [|done].
  apply mapM_None_2, Exists_exists. exists 0. split; [|done].
  apply elem_of_seqZ. lia.
Qed.

(** [getValidMoves] returns exactly when its loops end, and then it
    returns what their passes appended. *)
Lemma getValidMoves_exits s :
  loopsExit s → getValidMoves s = Some (appendedMoves s).
Proof.
  unfold loopsExit, boatMissionaries, boatCannibals, getValidMoves,
    appendedMoves.
  intros Hexit. destruct (boatOnLeft s).
  - apply forInt_exit; [unfold INT_MAX in *; lia|].
    intros m Hm. apply forInt_exit; [lia|done].
  - apply forInt_exit; [unfold INT_MAX in *; lia|].
    intros m Hm. apply forInt_exit; [lia|done].
Qed.

Lemma getValidMoves_no_exit s : ¬ loopsExit s → getValidMoves s = None.
Proof.
  unfold loopsExit, boatMissionaries, boatCannibals, getValidMoves.
  intros Hstay. destruct (boatOnLeft s).
  - destruct (Z_lt_le_dec (leftMissionaries s) INT_MAX);
      [|by apply forInt_no_exit].
    apply forInt_stuck; [lia|]. apply forInt_no_exit. lia.
  - destruct (Z_lt_le_dec (rightMissionaries s) INT_MAX);
      [|by apply forInt_no_exit].
    apply forInt_stuck; [lia|]. apply forInt_no_exit. lia.
Qed.

Lemma loopsExit_dec s : loopsExit s ∨ ¬ loopsExit s.
Proof. unfold loopsExit. lia. Qed.

Lemma getValidMoves_Some s validMoves :
  getValidMoves s = Some validMoves ↔
  loopsExit s ∧ validMoves = appendedMoves s.
Proof.
  split.
  - intros Hret. destruct (loopsExit_dec s) as [Hexit|Hstay].
    + rewrite (getValidMoves_exits s Hexit) in Hret. by injection Hret as <-.
    + by rewrite (getValidMoves_no_exit s Hstay) in Hret.
  - intros [Hexit ->]. by apply getValidMoves_exits.
Qed.

Lemma crossing_appended s t : crossing s t → t ∈ appendedMoves s.
Proof. by intros (validMoves & [_ ->]%getValidMoves_Some & Ht). Qed.

Lemma elem_of_tryMove t newState m c :
  t ∈ tryMove newState m c ↔
  boatLoad m c = true ∧ isSafe newState = true ∧ t = newState.
Proof.
  unfold tryMove.
  destruct (boatLoad m c), (isSafe newState);
    rewrite ?list_elem_of_singleton, ?elem_of_nil; intuition congruence.
Qed.

(** The successors of a state with the boat on the left. *)
Lemma elem_of_appendedMoves_left s t :
  boatOnLeft s = true →
  t ∈ appendedMoves s ↔
  ∃ m c, 0 <= m <= leftMissionaries s ∧ 0 <= c <= leftCannibals s ∧
         boatLoad m c = true ∧ isSafe (ferryRight s m c) = true ∧
         t = ferryRight s m c.
Proof.
  intros Hb. unfold appendedMoves. rewrite Hb. rewrite list_elem_of_bind.
  split.
  - intros (m & (c & Ht & Hc)%list_elem_of_bind & Hm).
    apply elem_of_seqZ in Hm, Hc. apply elem_of_tryMove in Ht.
    exists m, c. repeat split; try tauto; lia.
  - intros (m & c & Hm & Hc & Hl & Hs & ->).
    exists m. split; [|apply elem_of_seqZ; lia].
    apply list_elem_of_bind. exists c. split; [|apply elem_of_seqZ; lia].
    by apply elem_of_tryMove.
Qed.

(** The successors of a state with the boat on the right. *)
Lemma elem_of_appendedMoves_right s t :
  boatOnLeft s = false →
  t ∈ appendedMoves s ↔
  ∃ m c, 0 <= m <= rightMissionaries s ∧ 0 <= c <= rightCannibals s ∧
         boatLoad m c = true ∧ isSafe (ferryLeft s m c) = true ∧
         t = ferryLeft s m c.
Proof.
  intros Hb. unfold appendedMoves. rewrite Hb. rewrite list_elem_of_bind.
  split.
  - intros (m & (c & Ht & Hc)%list_elem_of_bind & Hm).
    apply elem_of_seqZ in Hm, Hc. apply elem_of_tryMove in Ht.
    exists m, c. repeat split; try tauto; lia.
  - intros (m & c & Hm & Hc & Hl & Hs & ->).
    exists m. split; [|apply elem_of_seqZ; lia].
    apply list_elem_of_bind. exists c. split; [|apply elem_of_seqZ; lia].
    by apply elem_of_tryMove.
Qed.

(** Case analysis on a successor: the boat side of the parent, the load, and
    the state built from them. *)
Lemma appendedMoves_inv s t :
  t ∈ appendedMoves s →
  ∃ m c, boatLoad m c = true ∧ isSafe t = true ∧
    ((boatOnLeft s = true ∧ 0 <= m <= leftMissionaries s ∧
      0 <= c <= leftCannibals s ∧ t = ferryRight s m c) ∨
     (boatOnLeft s = false ∧ 0 <= m <= rightMissionaries s ∧
      0 <= c <= rightCannibals s ∧ t = ferryLeft s m c)).
Proof.
  intros Ht. destruct (boatOnLeft s) eqn:Hb.
  - apply elem_of_appendedMoves_left in Ht as (m & c & ? & ? & ? & ? & ->);
      [|done].
    exists m, c. split; [done|]. split; [done|]. by left.
  - apply elem_of_appendedMoves_right in Ht as (m & c & ? & ? & ? & ? & ->);
      [|done].
    exists m, c. split; [done|]. split; [done|]. by right.
Qed.

Lemma State_eq_spec a b : State_eq a b = true ↔ a = b.
Proof.
  destruct a, b. unfold State_eq. simpl.
  rewrite !andb_true_iff, !Z.eqb_eq, Bool.eqb_true_iff.
  split; [intros ((((-> & ->) & ->) & ->) & ->); done|].
  intros [= -> -> -> -> ->]. done.
Qed.

(** C3: every state in the sequence that [getValidMoves] returns, for any
    input state, satisfies [isSafe]. *)
Theorem getValidMoves_safe (currentState : State) (moves : list State) :
  getValidMoves currentState = Some moves →
  Forall (λ move, isSafe move = true) moves.
Proof.
  intros [_ ->]%getValidMoves_Some. apply Forall_forall. intros t Ht.
  apply appendedMoves_inv in Ht as (m & c & _ & Hsafe & _). exact Hsafe.
Qed.

(** The three successors of [scenario1]. *)
Lemma getValidMoves_safe_witness :
  Forall (λ move, isSafe move = true)
    [mkState 3 2 0 1 false; mkState 3 1 0 2 false; mkState 2 2 1 1 false].
Proof.
  apply (getValidMoves_safe scenario1). vm_compute. reflexivity.
Defined.

(** C6: [isSafe] returns true exactly when, on each bank taken alone, there
    is no missionary or the missionaries are at least as many as the
    cannibals on that bank.  (It holds for all counts, the non-negative ones
    among them.) *)
Theorem isSafe_spec (state : State) :
  isSafe state = true ↔
  (leftMissionaries state = 0 ∨
   leftMissionaries state >= leftCannibals state) ∧
  (rightMissionaries state = 0 ∨
   rightMissionaries state >= rightCannibals state).
Proof.
  unfold isSafe.
  rewrite andb_true_iff, !negb_true_iff, !andb_false_iff, !negb_false_iff,
    !Z.eqb_eq, !Z.ltb_ge.
  lia.
Qed.

(** C8: no state in the sequence that [getValidMoves] returns equals the
    input state under [State::operator==], because each one has the boat on
    the other side. *)
Theorem getValidMoves_flips_boat (currentState : State)
    (moves : list State) :
  getValidMoves currentState = Some moves →
  Forall (λ move,
            boatOnLeft move = negb (boatOnLeft currentState) ∧
            State_eq move currentState = false ∧
            move ≠ currentState)
         moves.
Proof.
  intros [_ ->]%getValidMoves_Some. apply Forall_forall. intros t Ht.
  assert (boatOnLeft t = negb (boatOnLeft currentState)) as Hflip.
  { apply appendedMoves_inv in Ht
      as (m & c & _ & _ & [(-> & _ & _ & ->)|(-> & _ & _ & ->)]); done. }
  assert (t ≠ currentState) as Hne.
  { intros ->. by destruct (boatOnLeft currentState). }
  split; [done|]. split; [|done].
  destruct (State_eq t currentState) eqn:E; [|done].
  by apply State_eq_spec in E.
Qed.

(** The three successors of [scenario1]. *)
Lemma getValidMoves_flips_boat_witness :
  Forall (λ move,
            boatOnLeft move = negb (boatOnLeft scenario1) ∧
            State_eq move scenario1 = false ∧
            move ≠ scenario1)
    [mkState 3 2 0 1 false; mkState 3 1 0 2 false; mkState 2 2 1 1 false].
Proof.
  apply (getValidMoves_flips_boat scenario1). vm_compute. reflexivity.
Defined.

(** ** The search loop *)

(** More fuel does not change what a run returns. *)
Lemma run_mono fuel extra σ r :
  run fuel σ = Some r → run (fuel + extra) σ = Some r.
Proof.
  revert σ. induction fuel as [|fuel IH]; intros σ; simpl; [done|].
  destruct (iteration σ); [done|apply IH|done].
Qed.

Lemma solve_mono fuel extra s b :
  solveMissionariesCannibals fuel s = Some b →
  solveMissionariesCannibals (fuel + extra) s = Some b.
Proof.
  unfold solveMissionariesCannibals.
  destruct (run fuel (start s)) as [r|] eqn:E; [|done].
  intros [= <-]. by rewrite (run_mono _ extra _ _ E).
Qed.

Section Invariant.
Variable space : State → Prop.
Hypothesis space_closed : ∀ s t, space s → crossing s t → space t.

Lemma Inv_start s0 : space s0 → Inv space (start s0).
Proof.
  clear space_closed. intros Hs. split; simpl.
  - by intros t ->%list_elem_of_singleton.
  - by intros t Ht%not_elem_of_empty.
  - intros t. by rewrite elem_of_nil, elem_of_empty.
  - constructor.
Qed.

(** The front state was explored before: it is dropped. *)
Lemma Inv_skip cur rest explored out :
  Inv space (mkSearch (cur :: rest) explored out) →
  Inv space (mkSearch rest explored out).
Proof.
  intros [Hq He Hp Hn]. split; simpl in *; try done.
  intros t Ht. apply Hq. by right.
Qed.

(** The front state is new: it is inserted and printed, and the queue
    becomes [queue]. *)
Lemma Inv_visit cur rest explored out queue :
  Inv space (mkSearch (cur :: rest) explored out) →
  cur ∉ explored →
  (∀ t, t ∈ queue → space t) →
  Inv space (mkSearch queue (explored ∪ {[cur]}) (out ++ [cur])).
Proof.
  intros [Hq He Hp Hn] Hnew Hqueue. split; simpl in *.
  - done.
  - intros t [Ht| ->%elem_of_singleton]%elem_of_union; [by apply He|].
    apply Hq. by left.
  - intros t. rewrite elem_of_app, list_elem_of_singleton, elem_of_union,
      elem_of_singleton, Hp. done.
  - apply NoDup_app. split; [done|]. split; [|apply NoDup_singleton].
    intros t Ht ->%list_elem_of_singleton. by apply Hnew, Hp.
Qed.

Lemma pushUnexplored_space cur rest explored out explored' validMoves :
  Inv space (mkSearch (cur :: rest) explored out) →
  getValidMoves cur = Some validMoves →
  ∀ t, t ∈ pushUnexplored explored' validMoves rest → space t.
Proof.
  intros [Hq _ _ _] Hmoves t. unfold pushUnexplored. simpl in Hq.
  intros [Ht|[_ Ht]%list_elem_of_filter]%elem_of_app.
  - apply Hq. by right.
  - apply (space_closed cur); [|by exists validMoves]. apply Hq. by left.
Qed.

(** One pass through the loop keeps the invariant, whether the function
    returns or goes on. *)
Lemma iteration_Inv σ :
  Inv space σ →
  match iteration σ with
  | Return _ final => Inv space final
  | Continue next => Inv space next
  | Stuck => True
  end.
Proof.
  destruct σ as [[|cur rest] explored out]; unfold iteration; simpl;
    intros HI; [done|].
  destruct (decide (cur ∈ explored)) as [Hin|Hnew].
  { by eapply Inv_skip. }
  destruct (isGoal cur).
  { eapply Inv_visit; [done..|]. intros t Ht. apply HI. by right. }
  destruct (getValidMoves cur) as [validMoves|] eqn:Hmoves; [|done].
  eapply Inv_visit; [done..|]. by eapply pushUnexplored_space.
Qed.

Lemma during_Inv s0 σ : space s0 → during s0 σ → Inv space σ.
Proof.
  intros Hs0. induction 1 as [|σ next _ IH Hstep|σ value final _ IH Hstep].
  - by apply Inv_start.
  - pose proof (iteration_Inv σ IH) as H. by rewrite Hstep in H.
  - pose proof (iteration_Inv σ IH) as H. by rewrite Hstep in H.
Qed.

(** When [space] is finite (the members of [universe]) and the loops of
    [getValidMoves] end on its states, the search returns: each pass
    either shortens the queue or inserts a state of [universe] that was
    not yet explored. *)
Lemma run_returns (universe : gset State) :
  (∀ t, space t → t ∈ universe) →
  (∀ t, space t → loopsExit t) →
  ∀ (n : nat) σ,
    Inv space σ →
    (size (universe ∖ exploredStates σ) < n)%nat →
    ∃ fuel value final,
      run fuel σ = Some (value, final) ∧ Inv space final.
Proof.
  intros Huniv Hexit. induction n as [|n IHn]; [lia|].
  intros [queue explored out]. simpl.
  induction queue as [|cur rest IHq]; intros HI Hsize.
  { exists 1%nat, false, (mkSearch [] explored out). done. }
  assert (space cur) as Hspace by (apply HI; simpl; by left).
  pose proof (iteration_Inv _ HI) as Hnext.
  unfold iteration in Hnext. simpl in Hnext.
  destruct (decide (cur ∈ explored)) as [Hin|Hnew] eqn:Hdec.
  { destruct (IHq Hnext Hsize) as (fuel & value & final & Hrun & Hfin).
    exists (S fuel), value, final. split; [|done].
    simpl. unfold iteration. simpl. by rewrite Hdec. }
  destruct (isGoal cur) eqn:Hgoal.
  { exists 1%nat, true, (mkSearch rest (explored ∪ {[cur]}) (out ++ [cur])).
    split; [|done]. simpl. unfold iteration. simpl.
    by rewrite Hdec, Hgoal. }
  rewrite (getValidMoves_exits cur (Hexit cur Hspace)) in Hnext.
  destruct (IHn _ Hnext) as (fuel & value & final & Hrun & Hfin).
  { simpl.
    assert (cur ∈ universe) as Hcur by by apply Huniv.
    assert (universe ∖ (explored ∪ {[cur]}) ⊂ universe ∖ explored) as Hsub.
    { split.
      - intros t [Ht Hne]%elem_of_difference. apply elem_of_difference.
        split; [done|]. intros He. apply Hne, elem_of_union. by left.
      - intros Hsup. specialize (Hsup cur).
        rewrite !elem_of_difference, elem_of_union, elem_of_singleton in Hsup.
        tauto. }
    apply subset_size in Hsub. lia. }
  exists (S fuel), value, final. split; [|done].
  simpl. unfold iteration. simpl.
  by rewrite Hdec, Hgoal, (getValidMoves_exits cur (Hexit cur Hspace)).
Qed.
End Invariant.

(** ** The finite space of a search *)

Lemma int32_sub_l a b : int32 (int32 a - b) = int32 (a - b).
Proof.
  replace (int32 a - b) with (int32 a + - b) by lia.
  by rewrite int32_add_l.
Qed.

Lemma elem_of_bankStates M C s :
  s ∈ bankStates M C ↔
  ∃ lv cv b, 0 <= lv <= M ∧ 0 <= cv <= C ∧ s = bankState M C (lv, cv, b).
Proof.
  unfold bankStates. rewrite list_elem_of_fmap. split.
  - intros ([[lv cv] b] & -> & Hin).
    apply list_elem_of_cprod in Hin as [Hin _].
    apply list_elem_of_cprod in Hin as [Hl Hc]. simpl in Hl, Hc.
    apply elem_of_seqZ in Hl, Hc. exists lv, cv, b.
    repeat split; lia.
  - intros (lv & cv & b & Hl & Hc & ->). exists (lv, cv, b). split; [done|].
    apply list_elem_of_cprod. split; simpl.
    + apply list_elem_of_cprod. split; simpl; apply elem_of_seqZ; lia.
    + destruct b; [left|right; left].
Qed.

Lemma length_bankStates M C :
  0 <= M → 0 <= C →
  Z.of_nat (length (bankStates M C)) = 2 * (M + 1) * (C + 1).
Proof.
  intros HM HC. unfold bankStates.
  rewrite length_fmap, !list_cprod_list_prod, !length_prod, !length_seqZ.
  simpl length. lia.
Qed.

(** Every successor of a distribution of [M] and [C] people is again one. *)
Lemma bankStates_closed M C s t :
  0 <= M <= 2 * INT_MAX → 0 <= C <= 2 * INT_MAX →
  s ∈ bankStates M C → t ∈ appendedMoves s → t ∈ bankStates M C.
Proof.
  intros HM HC (lv & cv & b & Hlv & Hcv & ->)%elem_of_bankStates Ht.
  apply appendedMoves_inv in Ht as (m & c & _ & _ & Hcase).
  apply elem_of_bankStates. simpl in Hcase.
  destruct Hcase as [(-> & Hm & Hc & ->)|(-> & Hm & Hc & ->)].
  - rewrite (int32_nonneg_inv lv) in Hm by lia.
    rewrite (int32_nonneg_inv cv) in Hc by lia.
    exists (lv - m), (cv - c), false.
    split; [lia|]. split; [lia|].
    unfold ferryRight, bankState. simpl.
    rewrite !int32_sub_l, !int32_add_l. f_equal; f_equal; lia.
  - rewrite (int32_nonneg_inv (M - lv)) in Hm by lia.
    rewrite (int32_nonneg_inv (C - cv)) in Hc by lia.
    exists (lv + m), (cv + c), true.
    split; [lia|]. split; [lia|].
    unfold ferryLeft, bankState. simpl.
    rewrite !int32_sub_l, !int32_add_l. f_equal; f_equal; lia.
Qed.

(** A state with non-negative [int] counts is a distribution of its own
    totals. *)
Lemma initial_in_bankStates s0 :
  0 <= leftMissionaries s0 <= INT_MAX → 0 <= leftCannibals s0 <= INT_MAX →
  0 <= rightMissionaries s0 <= INT_MAX → 0 <= rightCannibals s0 <= INT_MAX →
  s0 ∈ bankStates (leftMissionaries s0 + rightMissionaries s0)
                  (leftCannibals s0 + rightCannibals s0).
Proof.
  destruct s0 as [lm lc rm rc b]. simpl. intros Hlm Hlc Hrm Hrc.
  apply elem_of_bankStates. exists lm, lc, b.
  split; [lia|]. split; [lia|]. unfold bankState.
  replace (lm + rm - lm) with rm by lia.
  replace (lc + rc - lc) with rc by lia.
  rewrite !int32_id; [done|unfold is_int, INT_MIN, INT_MAX in *; lia..].
Qed.

(** On a distribution of fewer than [INT_MAX] people of each kind, the
    loops of [getValidMoves] end. *)
Lemma bankStates_exit M C s :
  0 <= M < INT_MAX → 0 <= C < INT_MAX → s ∈ bankStates M C → loopsExit s.
Proof.
  intros HM HC (lv & cv & b & Hlv & Hcv & ->)%elem_of_bankStates.
  unfold loopsExit, boatMissionaries, boatCannibals, bankState. simpl.
  rewrite !int32_id by (unfold is_int, INT_MIN, INT_MAX in *; lia).
  right. destruct b; lia.
Qed.

(** A set of states closed under what the loops append is closed under
    boat trips. *)
Lemma via_crossing (space : State → Prop) :
  (∀ s t, space s → t ∈ appendedMoves s → space t) →
  ∀ s t, space s → crossing s t → space t.
Proof. intros Hclosed s t Hs Hst%crossing_appended. by eapply Hclosed. Qed.

(** The search from a state with non-negative counts, fewer than
    [INT_MAX] of each kind in all, returns, having explored distinct
    distributions of the initial totals only. *)
Lemma search_returns s0 :
  0 <= leftMissionaries s0 → 0 <= leftCannibals s0 →
  0 <= rightMissionaries s0 → 0 <= rightCannibals s0 →
  leftMissionaries s0 + rightMissionaries s0 < INT_MAX →
  leftCannibals s0 + rightCannibals s0 < INT_MAX →
  ∃ fuel value final,
    run fuel (start s0) = Some (value, final) ∧
    Inv (λ t, t ∈ bankStates (leftMissionaries s0 + rightMissionaries s0)
                             (leftCannibals s0 + rightCannibals s0))
        final.
Proof.
  intros Hlm Hlc Hrm Hrc HMlt HClt.
  set (M := leftMissionaries s0 + rightMissionaries s0) in *.
  set (C := leftCannibals s0 + rightCannibals s0) in *.
  assert (0 <= M <= 2 * INT_MAX) as HM by (unfold M, INT_MAX in *; lia).
  assert (0 <= C <= 2 * INT_MAX) as HC by (unfold C, INT_MAX in *; lia).
  apply (run_returns (λ t, t ∈ bankStates M C)
           (via_crossing _ (λ s t, bankStates_closed M C s t HM HC))
           (list_to_set (bankStates M C))
           (λ t Ht, proj2 (elem_of_list_to_set t _) Ht)
           (λ t, bankStates_exit M C t (conj (proj1 HM) HMlt)
                                       (conj (proj1 HC) HClt))
           (S (size (list_to_set (C:=gset State) (bankStates M C) ∖ ∅)))).
  - apply Inv_start. apply initial_in_bankStates; unfold M, C in *; lia.
  - simpl. lia.
Qed.

(** What the invariant gives at the end: the printed states are the
    explored ones, without repetition, and at most as many as the
    distributions. *)
Lemma Inv_bound M C final :
  0 <= M → 0 <= C →
  Inv (λ t, t ∈ bankStates M C) final →
  size (exploredStates final) = length (printed final) ∧
  Z.of_nat (length (printed final)) <= 2 * (M + 1) * (C + 1).
Proof.
  intros HM HC [_ He Hp Hn]. split.
  - rewrite <- (size_list_to_set (C:=gset State)) by done.
    f_equal. apply set_eq. intros t. by rewrite elem_of_list_to_set, Hp.
  - rewrite <- length_bankStates by done. apply inj_le.
    apply submseteq_length, NoDup_submseteq; [done|].
    intros t Ht. by apply He, Hp.
Qed.

(** ** Conservation *)

Lemma conserved32_closed s0 s t :
  conserved32 s0 s → t ∈ appendedMoves s → conserved32 s0 t.
Proof.
  intros [HM HC] Ht.
  apply appendedMoves_inv in Ht
    as (m & c & _ & _ & [(_ & _ & _ & ->)|(_ & _ & _ & ->)]);
    unfold conserved32; simpl; rewrite <- HM, <- HC;
    rewrite !int32_add_l, !int32_add_r; split; f_equal; lia.
Qed.

(** No [int] overflows in a successor when the totals fit in an [int]. *)
Lemma conserved_closed s0 s t :
  leftMissionaries s0 + rightMissionaries s0 <= INT_MAX →
  leftCannibals s0 + rightCannibals s0 <= INT_MAX →
  int_counts s ∧ conserved s0 s → t ∈ appendedMoves s →
  int_counts t ∧ conserved s0 t.
Proof.
  intros HMmax HCmax [(Hlm & Hlc & Hrm & Hrc) [HM HC]] Ht.
  unfold is_int, INT_MIN, INT_MAX in *.
  apply appendedMoves_inv in Ht
    as (m & c & _ & _ & [(_ & Hm & Hc & ->)|(_ & Hm & Hc & ->)]);
    unfold int_counts, conserved, ferryRight, ferryLeft; simpl;
    rewrite !int32_id by (unfold is_int, INT_MIN, INT_MAX; lia);
    unfold is_int, INT_MIN, INT_MAX; lia.
Qed.

(** ** What the result of the search means *)

Lemma run_during s0 fuel σ value final :
  during s0 σ → run fuel σ = Some (value, final) → during s0 final.
Proof.
  revert σ. induction fuel as [|fuel IH]; intros σ Hσ; simpl; [done|].
  destruct (iteration σ) as [v f|next|] eqn:Hstep.
  - intros [= <- <-]. by eapply during_return.
  - apply IH. by eapply during_continue.
  - done.
Qed.

(** A run that returns true has just explored a goal state. *)
Lemma run_true_goal fuel σ final :
  run fuel σ = Some (true, final) →
  ∃ goal, goal ∈ exploredStates final ∧ isGoal goal = true.
Proof.
  revert σ. induction fuel as [|fuel IH]; intros σ; simpl; [done|].
  destruct (iteration σ) as [v f|next|] eqn:Hstep; [|apply IH|done].
  intros [= -> ->]. unfold iteration in Hstep.
  destruct σ as [[|cur rest] explored out]; simpl in Hstep; [done|].
  destruct (decide (cur ∈ explored)); [done|].
  destruct (isGoal cur) eqn:Hgoal; [|by destruct (getValidMoves cur)].
  injection Hstep as <-. exists cur. split; [|done].
  simpl. apply elem_of_union. right. by apply elem_of_singleton.
Qed.

(** Soundness: when the search returns true, some sequence of boat trips
    leads from the initial state to a goal state. *)
Lemma search_sound fuel s0 :
  solveMissionariesCannibals fuel s0 = Some true →
  ∃ goal, rtc crossing s0 goal ∧ isGoal goal = true.
Proof.
  unfold solveMissionariesCannibals.
  destruct (run fuel (start s0)) as [[value final]|] eqn:Hrun; [|done].
  intros [= ->].
  destruct (run_true_goal _ _ _ Hrun) as (goal & Hin & Hgoal).
  exists goal. split; [|done].
  assert (during s0 final) as Hd
    by (eapply run_during; [apply during_start|done]).
  assert (Inv (rtc crossing s0) final) as [_ He _ _].
  { apply (during_Inv (rtc crossing s0)) with s0; [|done..].
    intros s t Hs Ht. by eapply rtc_r. }
  by apply He.
Qed.

Lemma Frontier_start s0 : Frontier s0 (start s0).
Proof.
  split; simpl.
  - left. by apply list_elem_of_singleton.
  - by intros s Hs%not_elem_of_empty.
  - by intros s t Hs%not_elem_of_empty.
Qed.

(** A pass through the loop that does not return keeps [Frontier]. *)
Lemma iteration_Frontier s0 σ next :
  Frontier s0 σ → iteration σ = Continue next → Frontier s0 next.
Proof.
  destruct σ as [[|cur rest] explored out]; unfold iteration; simpl;
    intros [Hinit Hgoal Hclosed]; simpl in *; [done|].
  destruct (decide (cur ∈ explored)) as [Hin|Hnew].
  { intros [= <-]. split; simpl.
    - destruct Hinit as [[->|Hrest]%elem_of_cons|He]; auto.
    - done.
    - intros s t Hs Hst.
      destruct (Hclosed s t Hs Hst) as [He|[->|Hrest]%elem_of_cons]; auto. }
  destruct (isGoal cur) eqn:Hcur; [done|].
  destruct (getValidMoves cur) as [validMoves|] eqn:Hmoves; [|done].
  intros [= <-]. split; simpl.
  - destruct Hinit as [[->|Hrest]%elem_of_cons|He].
    + right. apply elem_of_union. right. by apply elem_of_singleton.
    + left. unfold pushUnexplored. apply elem_of_app. by left.
    + right. apply elem_of_union. by left.
  - intros s [Hs| ->%elem_of_singleton]%elem_of_union; auto.
  - intros s t Hs Hst.
    destruct (decide (t ∈ explored ∪ {[cur]})) as [Hdone|Htodo]; [by left|].
    right. unfold pushUnexplored. apply elem_of_app.
    apply elem_of_union in Hs as [Hs| ->%elem_of_singleton].
    + destruct (Hclosed s t Hs Hst) as [He|[->|Hrest]%elem_of_cons].
      * exfalso. apply Htodo, elem_of_union. by left.
      * exfalso. apply Htodo, elem_of_union. right.
        by apply elem_of_singleton.
      * by left.
    + right. apply list_elem_of_filter. split; [done|].
      destruct Hst as (moves' & Hret & Ht). rewrite Hmoves in Hret.
      by injection Hret as <-.
Qed.

(** A run that returns false ends with an empty queue and [Frontier]. *)
Lemma run_false_Frontier s0 fuel σ final :
  Frontier s0 σ → run fuel σ = Some (false, final) →
  Frontier s0 final ∧ statesToExplore final = [].
Proof.
  revert σ. induction fuel as [|fuel IH]; intros σ HF; simpl; [done|].
  destruct (iteration σ) as [v f|next|] eqn:Hstep.
  - intros [= -> ->]. unfold iteration in Hstep.
    destruct σ as [[|cur rest] explored out]; simpl in Hstep.
    + by injection Hstep as <-.
    + destruct (decide (cur ∈ explored)); [done|].
      destruct (isGoal cur); [done|]. by destruct (getValidMoves cur).
  - apply IH. by eapply iteration_Frontier.
  - done.
Qed.

(** Completeness: when the search returns false, no sequence of boat
    trips leads from the initial state to a goal state. *)
Lemma search_complete fuel s0 :
  solveMissionariesCannibals fuel s0 = Some false →
  ∀ t, rtc crossing s0 t → isGoal t = false.
Proof.
  unfold solveMissionariesCannibals.
  destruct (run fuel (start s0)) as [[value final]|] eqn:Hrun; [|done].
  intros [= ->].
  destruct (run_false_Frontier s0 _ _ _ (Frontier_start s0) Hrun)
    as [[Hinit Hgoal Hclosed] Hempty].
  rewrite Hempty in Hinit, Hclosed.
  assert (∀ t, rtc crossing s0 t → t ∈ exploredStates final) as Hall.
  { apply (rtc_ind_r (λ t, t ∈ exploredStates final) s0).
    - destruct Hinit as [Hnil%elem_of_nil|He]; done.
    - intros t u _ Htu IH.
      destruct (Hclosed t u IH Htu) as [He|Hnil%elem_of_nil]; done. }
  intros t Ht. by apply Hgoal, Hall.
Qed.

(** ** The claims *)

(** C1: from 3 missionaries and 3 cannibals on the left bank, nobody on the
    right and the boat on the left, [solveMissionariesCannibals] returns
    true; a solution exists, that is, boat trips lead from this state to a
    goal state. *)
Theorem scenario1_solved :
  (∃ fuel, ∀ extra,
     solveMissionariesCannibals (fuel + extra) scenario1 = Some true) ∧
  (∃ goal, rtc crossing scenario1 goal ∧ isGoal goal = true).
Proof.
  assert (solveMissionariesCannibals 16 scenario1 = Some true) as Hrun
    by (vm_compute; reflexivity).
  split.
  - exists 16%nat. intros extra. by apply solve_mono.
  - by apply (search_sound 16).
Qed.

(** C2, as the code behaves: from 4 missionaries and 4 cannibals on the
    left bank, nobody on the right and the boat on the left,
    [solveMissionariesCannibals] returns false; and rightly so, since no
    sequence of boat trips leads from this state to a goal state. *)
Theorem scenario4_no_solution :
  (∃ fuel, ∀ extra,
     solveMissionariesCannibals (fuel + extra) scenario4 = Some false) ∧
  (∀ t, rtc crossing scenario4 t → isGoal t = false).
Proof.
  assert (solveMissionariesCannibals 64 scenario4 = Some false) as Hrun
    by (vm_compute; reflexivity).
  split.
  - exists 64%nat. intros extra. by apply solve_mono.
  - by apply (search_complete 64).
Qed.

(** C2, refuted as stated: the search on 4 and 4 returns false, and no
    amount of fuel makes it return true. *)
Lemma scenario4_not_solved :
  solveMissionariesCannibals 64 scenario4 = Some false ∧
  ¬ ∃ fuel, solveMissionariesCannibals fuel scenario4 = Some true.
Proof.
  assert (solveMissionariesCannibals 64 scenario4 = Some false) as H64
    by (vm_compute; reflexivity).
  split; [exact H64|]. intros [fuel Htrue].
  apply (solve_mono _ 64) in Htrue. apply (solve_mono _ fuel) in H64.
  rewrite Nat.add_comm in H64. congruence.
Qed.

(** C4: in a run of [solveMissionariesCannibals] from any initial state,
    every state in the queue or in the explored set has the initial totals
    of missionaries and of cannibals: always so with the sums taken in
    [int], and as plain integers whenever the initial counts are [int]s
    whose totals do not exceed [INT_MAX]. *)
Theorem search_conserves_totals (initialState : State) (σ : Search)
    (t : State) :
  during initialState σ →
  t ∈ statesToExplore σ ∨ t ∈ exploredStates σ →
  conserved32 initialState t ∧
  (int_counts initialState →
   leftMissionaries initialState + rightMissionaries initialState
     <= INT_MAX →
   leftCannibals initialState + rightCannibals initialState <= INT_MAX →
   conserved initialState t).
Proof.
  intros Hrun Ht. split.
  - pose proof (during_Inv (conserved32 initialState)
                  (via_crossing _ (conserved32_closed initialState))
                  initialState σ
                  (conj eq_refl eq_refl) Hrun) as [Hq He _ _].
    destruct Ht; auto.
  - intros Hint HM HC.
    pose proof (during_Inv
                  (λ t, int_counts t ∧ conserved initialState t)
                  (via_crossing _
                     (λ s t, conserved_closed initialState s t HM HC))
                  initialState σ
                  (conj Hint (conj eq_refl eq_refl)) Hrun) as [Hq He _ _].
    destruct Ht as [Ht|Ht]; [apply Hq in Ht|apply He in Ht]; tauto.
Qed.

(** Conservation on the first successor queued by the search on
    [scenario1]. *)
Lemma search_conserves_totals_witness :
  conserved scenario1 (mkState 3 2 0 1 false).
Proof.
  refine (proj2 (search_conserves_totals scenario1 afterFirstPass
                   (mkState 3 2 0 1 false) _ _) _ _ _).
  - apply (during_continue scenario1 (start scenario1)).
    + apply during_start.
    + vm_compute. reflexivity.
  - left. apply list_elem_of_In. vm_compute. left. reflexivity.
  - unfold int_counts, is_int, INT_MIN, INT_MAX. simpl. lia.
  - unfold INT_MAX. simpl. lia.
  - unfold INT_MAX. simpl. lia.
Defined.

(** A search whose initial state is no goal state and makes
    [getValidMoves] loop for ever never returns. *)
Lemma run_stuck s0 :
  isGoal s0 = false → getValidMoves s0 = None →
  ∀ fuel, run fuel (start s0) = None.
Proof.
  intros Hgoal Hmoves [|fuel]; [done|].
  simpl. unfold iteration. simpl.
  rewrite decide_False by apply not_elem_of_empty.
  by rewrite Hgoal, Hmoves.
Qed.

(** C5, where the code fails it: with [INT_MAX] missionaries on the left
    bank (and nobody else anywhere), the outer loop of [getValidMoves] has
    no exit, so that [getValidMoves] does not return, and
    [solveMissionariesCannibals] returns after no number of passes. *)
Theorem search_never_returns_at_INT_MAX :
  getValidMoves (mkState 2147483647 0 0 0 true) = None ∧
  ∀ fuel,
    solveMissionariesCannibals fuel (mkState 2147483647 0 0 0 true) = None.
Proof.
  assert (getValidMoves (mkState 2147483647 0 0 0 true) = None) as Hmoves
    by (vm_compute; reflexivity).
  split; [done|]. intros fuel. unfold solveMissionariesCannibals.
  by rewrite run_stuck.
Qed.

(** X15: from every initial state with non-negative counts and fewer
    than [INT_MAX] missionaries and fewer than [INT_MAX] cannibals in all,
    the search returns; the states it inserted into the explored set and
    expanded (the printed ones) are pairwise distinct, and there are at
    most [2 * (M + 1) * (C + 1)] of them, [M] and [C] being the initial
    totals of missionaries and cannibals. *)
Theorem search_terminates (initialState : State) :
  0 <= leftMissionaries initialState →
  0 <= leftCannibals initialState →
  0 <= rightMissionaries initialState →
  0 <= rightCannibals initialState →
  leftMissionaries initialState + rightMissionaries initialState < INT_MAX →
  leftCannibals initialState + rightCannibals initialState < INT_MAX →
  ∃ fuel value final,
    (∀ extra, run (fuel + extra) (start initialState) = Some (value, final)) ∧
    (∀ extra,
       solveMissionariesCannibals (fuel + extra) initialState = Some value) ∧
    NoDup (printed final) ∧
    (∀ t, t ∈ printed final ↔ t ∈ exploredStates final) ∧
    size (exploredStates final) = length (printed final) ∧
    Z.of_nat (length (printed final))
      <= 2 * (leftMissionaries initialState
              + rightMissionaries initialState + 1)
           * (leftCannibals initialState + rightCannibals initialState + 1).
Proof.
  intros Hlm Hlc Hrm Hrc HM HC.
  destruct (search_returns initialState Hlm Hlc Hrm Hrc HM HC)
    as (fuel & value & final & Hrun & HI).
  exists fuel, value, final.
  split; [intros extra; by apply run_mono|].
  split.
  { intros extra. unfold solveMissionariesCannibals.
    by rewrite (run_mono _ extra _ _ Hrun). }
  split; [apply HI|]. split; [apply HI|].
  apply Inv_bound in HI; [|lia..]. exact HI.
Qed.

(** Termination and the bound of 32 explored states on [scenario1]. *)
Lemma search_terminates_witness :
  ∃ fuel value final,
    (∀ extra, run (fuel + extra) (start scenario1) = Some (value, final)) ∧
    (∀ extra,
       solveMissionariesCannibals (fuel + extra) scenario1 = Some value) ∧
    NoDup (printed final) ∧
    (∀ t, t ∈ printed final ↔ t ∈ exploredStates final) ∧
    size (exploredStates final) = length (printed final) ∧
    Z.of_nat (length (printed final)) <= 2 * (3 + 0 + 1) * (3 + 0 + 1).
Proof.
  apply (search_terminates scenario1); unfold INT_MAX; simpl; lia.
Defined.

(** C7: with nobody on either bank and the boat on the left, the initial
    state is not a goal state, [getValidMoves] returns no successor, and
    [solveMissionariesCannibals] returns false. *)
Theorem scenario2_no_solution :
  isGoal scenario2 = false ∧
  getValidMoves scenario2 = Some [] ∧
  ∃ fuel, ∀ extra,
    solveMissionariesCannibals (fuel + extra) scenario2 = Some false.
Proof.
  split; [reflexivity|]. split; [vm_compute; reflexivity|].
  exists 2%nat. intros extra. apply solve_mono. vm_compute. reflexivity.
Qed.

(** ** The command line *)

Section MainProperties.
Variable stoi : string → option Z.

(** With non-negative counts below [INT_MAX] on the command line, [main]
    runs the search to its end and reports. *)
Lemma main_searches argv initialState :
  readArguments stoi argv = (initialState, None) →
  initialState = mkState (leftMissionaries initialState)
                         (leftCannibals initialState) 0 0 true →
  0 <= leftMissionaries initialState < INT_MAX →
  0 <= leftCannibals initialState < INT_MAX →
  ∃ fuel value final, ∀ extra,
    run (fuel + extra) (start initialState) = Some (value, final) ∧
    main stoi (fuel + extra) argv = Some (report value final).
Proof.
  intros Hargs Hshape Hm Hc.
  destruct (search_returns initialState) as (fuel & value & final & Hrun & _);
    [rewrite Hshape; simpl; lia..|].
  exists fuel, value, final. intros extra.
  apply (run_mono _ extra) in Hrun. split; [done|].
  unfold main. by rewrite Hargs, Hrun.
Qed.

(** X16: when one or two numeric arguments are given and one of the counts
    is negative, [main] prints an error message and returns 1 without
    running the search (whatever the fuel, nothing else is printed); when
    all the counts given are non-negative and below [INT_MAX], the search
    runs to its end and [main] returns 0. *)
Theorem main_exit_status (prog : string) (args : list string)
    (counts : list Z) :
  (1 <= length args <= 2)%nat →
  Forall2 (λ arg count, stoi arg = Some count) args counts →
  (Exists (λ count, count < 0) counts →
   ∃ text,
     (text = "Cannibal count cannot be negative." ∨
      text = "Missionary count cannot be negative.") ∧
     ∀ fuel,
       main stoi fuel (prog :: args)
         = Some (mkProcess [TextLine text] (Exit 1))) ∧
  (Forall (λ count, 0 <= count < INT_MAX) counts →
   ∃ fuel value final, ∀ extra,
     run (fuel + extra)
         (start (mkState (nth 0 counts 0) (nth 1 counts 0) 0 0 true))
       = Some (value, final) ∧
     main stoi (fuel + extra) (prog :: args)
       = Some (mkProcess
                 ((StateLine <$> printed final) ++
                  [TextLine (if value then "Solution found!"
                             else "No solution exists.")])
                 (Exit 0))).
Proof.
  intros Hlen Hparse.
  destruct args as [|arg1 [|arg2 [|? ?]]]; simpl in Hlen; try lia.
  - (* one argument *)
    apply Forall2_cons_inv_l in Hparse as (m & cs & Hm & Hnil & ->).
    apply Forall2_nil_inv_l in Hnil as ->. split.
    + intros Hneg. apply Exists_cons in Hneg as [Hneg|Hneg];
        [|by apply Exists_nil in Hneg].
      exists "Missionary count cannot be negative.". split; [by right|].
      intros fuel. unfold main, readArguments, caseTwo. rewrite Hm.
      by rewrite (proj2 (Z.ltb_lt m 0) Hneg).
    + intros [Hpos _]%Forall_cons. simpl nth.
      apply main_searches; simpl;
        [|done|unfold INT_MAX in *; lia..].
      unfold readArguments, caseTwo. rewrite Hm.
      by rewrite (proj2 (Z.ltb_ge m 0) (proj1 Hpos)).
  - (* two arguments *)
    apply Forall2_cons_inv_l in Hparse as (m & cs & Hm & Hrest & ->).
    apply Forall2_cons_inv_l in Hrest as (c & cs' & Hc & Hnil & ->).
    apply Forall2_nil_inv_l in Hnil as ->. split.
    + intros Hneg.
      destruct (Z.ltb_spec c 0) as [Hcneg|Hcpos].
      * exists "Cannibal count cannot be negative.". split; [by left|].
        intros fuel. unfold main, readArguments. rewrite Hc.
        by rewrite (proj2 (Z.ltb_lt c 0) Hcneg).
      * assert (m < 0) as Hmneg.
        { apply Exists_cons in Hneg as [Hneg|Hneg]; [done|].
          apply Exists_cons in Hneg as [Hneg|Hneg]; [lia|].
          by apply Exists_nil in Hneg. }
        exists "Missionary count cannot be negative.". split; [by right|].
        intros fuel. unfold main, readArguments, caseTwo. rewrite Hc.
        rewrite (proj2 (Z.ltb_ge c 0) Hcpos), Hm.
        by rewrite (proj2 (Z.ltb_lt m 0) Hmneg).
    + intros [Hmpos [Hcpos _]%Forall_cons]%Forall_cons. simpl nth.
      apply main_searches; simpl;
        [|done|unfold INT_MAX in *; lia..].
      unfold readArguments, caseTwo. rewrite Hc.
      rewrite (proj2 (Z.ltb_ge c 0) (proj1 Hcpos)), Hm.
      by rewrite (proj2 (Z.ltb_ge m 0) (proj1 Hmpos)).
Qed.

(** C9, where the code fails it: when the only argument is [INT_MAX], a
    count that is not negative, [main] starts the search, whose first call
    of [getValidMoves] does not return: [main] ends after no number of
    passes, with no exit status. *)
Theorem main_never_exits_at_INT_MAX (prog arg : string) :
  stoi arg = Some 2147483647 →
  readArguments stoi [prog; arg] = (mkState 2147483647 0 0 0 true, None) ∧
  ∀ fuel, main stoi fuel [prog; arg] = None.
Proof.
  intros Hparse.
  assert (readArguments stoi [prog; arg]
          = (mkState 2147483647 0 0 0 true, None)) as Hargs.
  { unfold readArguments, caseTwo. by rewrite Hparse. }
  split; [done|]. intros fuel. unfold main. rewrite Hargs.
  rewrite run_stuck; [done|done|]. vm_compute. reflexivity.
Qed.
End MainProperties.

(** The two command lines [solver 3 -1] and [solver 3 3]. *)
Lemma main_exit_status_witness :
  (∃ text,
     (text = "Cannibal count cannot be negative." ∨
      text = "Missionary count cannot be negative.") ∧
     ∀ fuel,
       main decimalStoi fuel ["solver"; "3"; "-1"]
         = Some (mkProcess [TextLine text] (Exit 1))) ∧
  (∃ fuel value final, ∀ extra,
     run (fuel + extra) (start (mkState 3 3 0 0 true))
       = Some (value, final) ∧
     main decimalStoi (fuel + extra) ["solver"; "3"; "3"]
       = Some (mkProcess
                 ((StateLine <$> printed final) ++
                  [TextLine (if value then "Solution found!"
                             else "No solution exists.")])
                 (Exit 0))).
Proof.
  split.
  - refine (proj1 (main_exit_status decimalStoi "solver"
                     ["3"; "-1"] [3; -1] _ _) _).
    + simpl. lia.
    + repeat constructor.
    + right. left. lia.
  - refine (proj2 (main_exit_status decimalStoi "solver"
                     ["3"; "3"] [3; 3] _ _) _).
    + simpl. lia.
    + repeat constructor.
    + unfold INT_MAX. repeat constructor; lia.
Defined.

(** The command line [solver 2147483647]. *)
Lemma main_never_exits_at_INT_MAX_witness :
  readArguments decimalStoi ["solver"; "2147483647"]
    = (mkState 2147483647 0 0 0 true, None) ∧
  ∀ fuel, main decimalStoi fuel ["solver"; "2147483647"] = None.
Proof.
  apply (main_never_exits_at_INT_MAX decimalStoi "solver" "2147483647").
  vm_compute. reflexivity.
Defined.

(** C10: with exactly one numeric argument, the initial state has the
    argument's value as its left missionary count, 0 as its left cannibal
    count (whereas without arguments both left counts are 3), nobody on the
    right bank and the boat on the left; when that value is not negative,
    it is the state the search is run on. *)
Theorem one_argument_initial_state (stoi : string → option Z)
    (prog arg : string) (count : Z) :
  stoi arg = Some count →
  fst (readArguments stoi [prog; arg]) = mkState count 0 0 0 true ∧
  fst (readArguments stoi [prog]) = mkState 3 3 0 0 true ∧
  (0 <= count →
   ∀ fuel,
     main stoi fuel [prog; arg]
       = (λ r, report r.1 r.2) <$> run fuel (start (mkState count 0 0 0 true))).
Proof.
  intros Hparse. unfold main, readArguments, caseTwo. rewrite Hparse.
  split; [by destruct (count <? 0)|]. split; [done|].
  intros Hpos fuel. rewrite (proj2 (Z.ltb_ge count 0) Hpos).
  unfold set_leftMissionaries, defaultState. simpl.
  by destruct (run fuel _) as [[value final]|].
Qed.

(** The command line [solver 5]. *)
Lemma one_argument_initial_state_witness :
  fst (readArguments decimalStoi ["solver"; "5"]) = mkState 5 0 0 0 true ∧
  fst (readArguments decimalStoi ["solver"]) = mkState 3 3 0 0 true ∧
  (0 <= 5 →
   ∀ fuel,
     main decimalStoi fuel ["solver"; "5"]
       = (λ r, report r.1 r.2) <$> run fuel (start (mkState 5 0 0 0 true))).
Proof.
  apply (one_argument_initial_state decimalStoi "solver" "5" 5).
  vm_compute. reflexivity.
Defined.

(** * Further properties of the code *)

(** ** The move generator *)

Lemma int32_inj_near a b :
  - 4294967296 < a - b < 4294967296 → int32 a = int32 b → a = b.
Proof.
  unfold int32. intros Hnear Heq.
  assert ((a + 2147483648) mod 4294967296 = (b + 2147483648) mod 4294967296)
    as Hmod by lia.
  rewrite (Z.mod_eq (a + 2147483648) 4294967296) in Hmod by lia.
  rewrite (Z.mod_eq (b + 2147483648) 4294967296) in Hmod by lia.
  assert ((a + 2147483648) / 4294967296 = (b + 2147483648) / 4294967296);
    [nia|lia].
Qed.

(** Nobody to ferry, or a loop bound below zero: no pass through the inner
    loop appends anything. *)
Lemma appendedMoves_nil s :
  boatMissionaries s < 0 ∨ boatCannibals s < 0 ∨
  (boatMissionaries s = 0 ∧ boatCannibals s = 0) →
  appendedMoves s = [].
Proof.
  intros Hbank. apply elem_of_nil_inv. intros t Ht.
  apply appendedMoves_inv in Ht as (m & c & Hload & _ & Hcase).
  unfold boatMissionaries, boatCannibals in Hbank.
  assert (m = 0 ∧ c = 0) as [-> ->].
  { destruct Hcase as [(Hb & ? & ? & _)|(Hb & ? & ? & _)];
      rewrite Hb in Hbank; lia. }
  done.
Qed.

(** The plain-integer trip is what the program computes when nothing
    overflows. *)
Lemma ferry_transfer s m c :
  plain_counts s → 0 <= m <= boatMissionaries s → 0 <= c <= boatCannibals s →
  (if boatOnLeft s then ferryRight s m c else ferryLeft s m c)
    = transfer s m c.
Proof.
  unfold plain_counts, boatMissionaries, boatCannibals, transfer,
    ferryRight, ferryLeft, INT_MAX.
  intros Hs Hm Hc.
  destruct (boatOnLeft s);
    rewrite !int32_id by (unfold is_int, INT_MIN, INT_MAX; lia); done.
Qed.

(** The members of [appendedMoves], with the side of the boat left
    implicit. *)
Lemma elem_of_appendedMoves s t :
  t ∈ appendedMoves s ↔
  ∃ m c, 0 <= m <= boatMissionaries s ∧ 0 <= c <= boatCannibals s ∧
         boatLoad m c = true ∧
         t = (if boatOnLeft s then ferryRight s m c else ferryLeft s m c) ∧
         isSafe t = true.
Proof.
  unfold boatMissionaries, boatCannibals.
  destruct (boatOnLeft s) eqn:Hb.
  - rewrite elem_of_appendedMoves_left by done. split.
    + intros (m & c & ? & ? & ? & ? & ->). by exists m, c.
    + intros (m & c & ? & ? & ? & -> & ?). by exists m, c.
  - rewrite elem_of_appendedMoves_right by done. split.
    + intros (m & c & ? & ? & ? & ? & ->). by exists m, c.
    + intros (m & c & ? & ? & ? & -> & ?). by exists m, c.
Qed.

(** X1: a state whose boat-side bank holds nobody, or a negative number of
    missionaries, or fewer than [INT_MAX] missionaries and a negative
    number of cannibals, has no successor at all: [getValidMoves] returns
    an empty vector, and a search started there, unless the state is a goal
    state, returns false after exploring it alone. *)
Theorem getValidMoves_stranded (currentState : State) :
  boatMissionaries currentState < 0 ∨
  (boatMissionaries currentState < INT_MAX ∧ boatCannibals currentState < 0) ∨
  (boatMissionaries currentState = 0 ∧ boatCannibals currentState = 0) →
  getValidMoves currentState = Some [] ∧
  ∀ fuel, isGoal currentState = false →
    solveMissionariesCannibals (S (S fuel)) currentState = Some false.
Proof.
  intros Hbank.
  assert (getValidMoves currentState = Some []) as Hnil.
  { rewrite getValidMoves_exits, appendedMoves_nil; [done|lia|].
    unfold loopsExit, INT_MAX in *. lia. }
  split; [done|]. intros fuel Hgoal.
  unfold solveMissionariesCannibals, start. simpl. unfold iteration. simpl.
  rewrite decide_False by apply not_elem_of_empty.
  rewrite Hgoal, Hnil. done.
Qed.

Lemma getValidMoves_stranded_witness :
  getValidMoves (mkState 2 (-1) 0 3 true) = Some [] ∧
  ∀ fuel, isGoal (mkState 2 (-1) 0 3 true) = false →
    solveMissionariesCannibals (S (S fuel)) (mkState 2 (-1) 0 3 true)
      = Some false.
Proof.
  apply (getValidMoves_stranded (mkState 2 (-1) 0 3 true)).
  right. left. split; reflexivity.
Defined.

(** The successors of a state without overflow, in plain integers. *)
Lemma elem_of_appendedMoves_plain s t :
  plain_counts s →
  t ∈ appendedMoves s ↔
  ∃ m c, 0 <= m <= boatMissionaries s ∧ 0 <= c <= boatCannibals s ∧
         1 <= m + c <= 2 ∧ t = transfer s m c ∧ isSafe t = true.
Proof.
  intros Hs. rewrite elem_of_appendedMoves.
  assert (boatMissionaries s <= INT_MAX ∧ boatCannibals s <= INT_MAX)
    as [HM HC].
  { unfold plain_counts, boatMissionaries, boatCannibals in *.
    destruct (boatOnLeft s); lia. }
  split.
  - intros (m & c & Hm & Hc & Hload & -> & Hsafe). exists m, c.
    apply boatLoad_spec in Hload; [|lia..].
    by rewrite ferry_transfer in *.
  - intros (m & c & Hm & Hc & Hload & -> & Hsafe). exists m, c.
    apply boatLoad_spec in Hload; [|lia..].
    by rewrite ferry_transfer.
Qed.

(** X2: on a state with non-negative counts whose totals fit in an [int],
    and with fewer than [INT_MAX] missionaries and fewer than [INT_MAX]
    cannibals on the boat's bank, [getValidMoves] returns, and it returns
    exactly the safe states that one boat trip of one or two people from
    the boat's bank leads to, in plain integers: none is missing and none
    is added. *)
Theorem getValidMoves_exact (currentState : State) :
  plain_counts currentState →
  boatMissionaries currentState < INT_MAX →
  boatCannibals currentState < INT_MAX →
  ∃ moves,
    getValidMoves currentState = Some moves ∧
    ∀ move,
      move ∈ moves ↔
      ∃ m c, 0 <= m <= boatMissionaries currentState ∧
             0 <= c <= boatCannibals currentState ∧
             1 <= m + c <= 2 ∧
             move = transfer currentState m c ∧
             isSafe move = true.
Proof.
  intros Hs HM HC. exists (appendedMoves currentState). split.
  - apply getValidMoves_exits. right. done.
  - intros move. by apply elem_of_appendedMoves_plain.
Qed.

Lemma getValidMoves_exact_witness :
  ∃ moves,
    getValidMoves scenario1 = Some moves ∧
    ∀ move,
      move ∈ moves ↔
      ∃ m c, 0 <= m <= boatMissionaries scenario1 ∧
             0 <= c <= boatCannibals scenario1 ∧
             1 <= m + c <= 2 ∧
             move = transfer scenario1 m c ∧
             isSafe move = true.
Proof.
  apply (getValidMoves_exact scenario1).
  - unfold plain_counts, INT_MAX. simpl. lia.
  - reflexivity.
  - reflexivity.
Defined.

(** The five loads that pass the test of the inner loops. *)
Lemma boatLoad_cases m c :
  0 <= m <= INT_MAX → 0 <= c <= INT_MAX → boatLoad m c = true →
  (m, c) ∈ [(0, 1); (0, 2); (1, 0); (1, 1); (2, 0)].
Proof.
  intros Hm Hc Hload. apply boatLoad_spec in Hload; [|done..].
  assert (m = 0 ∨ m = 1 ∨ m = 2) as [-> | [-> | ->]] by lia;
    assert (c = 0 ∨ c = 1 ∨ c = 2) as [-> | [-> | ->]] by lia;
    try lia; apply list_elem_of_In; simpl; tauto.
Qed.

Lemma ferryRight_inj s m c m' c' :
  0 <= m <= 2 → 0 <= c <= 2 → 0 <= m' <= 2 → 0 <= c' <= 2 →
  ferryRight s m c = ferryRight s m' c' → m = m' ∧ c = c'.
Proof.
  intros Hm Hc Hm' Hc' Heq.
  pose proof (f_equal leftMissionaries Heq) as H1.
  pose proof (f_equal leftCannibals Heq) as H2.
  cbn [leftMissionaries leftCannibals ferryRight ferryLeft] in H1, H2.
  apply int32_inj_near in H1; [|lia]. apply int32_inj_near in H2; lia.
Qed.

Lemma ferryLeft_inj s m c m' c' :
  0 <= m <= 2 → 0 <= c <= 2 → 0 <= m' <= 2 → 0 <= c' <= 2 →
  ferryLeft s m c = ferryLeft s m' c' → m = m' ∧ c = c'.
Proof.
  intros Hm Hc Hm' Hc' Heq.
  pose proof (f_equal leftMissionaries Heq) as H1.
  pose proof (f_equal leftCannibals Heq) as H2.
  cbn [leftMissionaries leftCannibals ferryRight ferryLeft] in H1, H2.
  apply int32_inj_near in H1; [|lia]. apply int32_inj_near in H2; lia.
Qed.

(** The two nested loops append no state twice, when different loads give
    different states. *)
Lemma NoDup_loops (ferry : Z → Z → State) (bm bc : Z) :
  bm <= INT_MAX → bc <= INT_MAX →
  (∀ m c m' c',
     0 <= m <= 2 → 0 <= c <= 2 → 0 <= m' <= 2 → 0 <= c' <= 2 →
     ferry m c = ferry m' c' → m = m' ∧ c = c') →
  NoDup (m ← seqZ 0 (bm + 1); c ← seqZ 0 (bc + 1); tryMove (ferry m c) m c).
Proof.
  intros Hbm Hbc Hinj.
  assert (∀ m c y, m ∈ seqZ 0 (bm + 1) → c ∈ seqZ 0 (bc + 1) →
            y ∈ tryMove (ferry m c) m c →
            0 <= m <= 2 ∧ 0 <= c <= 2 ∧ y = ferry m c) as Hload.
  { intros m c y Hm%elem_of_seqZ Hc%elem_of_seqZ (Hl & _ & ->)%elem_of_tryMove.
    apply boatLoad_spec in Hl; [|lia..].
    split; [lia|]. split; [lia|done]. }
  apply NoDup_bind; [| |apply NoDup_seqZ].
  - intros m1 m2 y Hm1 Hm2 (c1 & Hy1 & Hc1)%list_elem_of_bind
      (c2 & Hy2 & Hc2)%list_elem_of_bind.
    destruct (Hload _ _ _ Hm1 Hc1 Hy1) as (? & ? & ->).
    destruct (Hload _ _ _ Hm2 Hc2 Hy2) as (? & ? & Heq).
    by apply Hinj in Heq as [? ?].
  - intros m Hm. apply NoDup_bind; [| |apply NoDup_seqZ].
    + intros c1 c2 y Hc1 Hc2 Hy1 Hy2.
      destruct (Hload _ _ _ Hm Hc1 Hy1) as (? & ? & ->).
      destruct (Hload _ _ _ Hm Hc2 Hy2) as (? & ? & Heq).
      by apply Hinj in Heq as [? ?].
    + intros c Hc. unfold tryMove.
      destruct (boatLoad m c), (isSafe (ferry m c));
        auto using NoDup_nil_2, NoDup_singleton.
Qed.

(** Only five loads pass the test, and they lead to five different
    states. *)
Lemma moves_NoDup_five (currentState : State) :
  int_counts currentState →
  NoDup (appendedMoves currentState) ∧
  (length (appendedMoves currentState) <= 5)%nat.
Proof.
  intros (Hlm & Hlc & Hrm & Hrc). unfold is_int in *.
  assert (NoDup (appendedMoves currentState)) as Hnodup.
  { unfold appendedMoves. destruct (boatOnLeft currentState).
    - apply (NoDup_loops (ferryRight currentState)); [lia..|].
      apply ferryRight_inj.
    - apply (NoDup_loops (ferryLeft currentState)); [lia..|].
      apply ferryLeft_inj. }
  split; [done|].
  set (ferry m c := if boatOnLeft currentState
                    then ferryRight currentState m c
                    else ferryLeft currentState m c).
  change 5%nat
    with (length ((λ p, ferry p.1 p.2) <$>
                    [(0, 1); (0, 2); (1, 0); (1, 1); (2, 0)])).
  apply submseteq_length, NoDup_submseteq; [done|].
  intros t (m & c & Hm & Hc & Hload & -> & _)%elem_of_appendedMoves.
  apply list_elem_of_fmap. exists (m, c). split; [done|].
  unfold boatMissionaries, boatCannibals in *.
  apply boatLoad_cases; [destruct (boatOnLeft currentState); lia..|done].
Qed.

(** X3: on a state with [int] counts, the vector that [getValidMoves]
    returns holds at most five states and no state twice. *)
Theorem getValidMoves_at_most_five (currentState : State)
    (moves : list State) :
  int_counts currentState →
  getValidMoves currentState = Some moves →
  NoDup moves ∧ (length moves <= 5)%nat.
Proof.
  intros Hint [_ ->]%getValidMoves_Some. by apply moves_NoDup_five.
Qed.

Lemma getValidMoves_at_most_five_witness :
  NoDup [mkState 3 2 0 1 false; mkState 3 1 0 2 false;
         mkState 2 2 1 1 false] ∧
  (length [mkState 3 2 0 1 false; mkState 3 1 0 2 false;
           mkState 2 2 1 1 false] <= 5)%nat.
Proof.
  apply (getValidMoves_at_most_five scenario1).
  - unfold int_counts, is_int, INT_MIN, INT_MAX. simpl. lia.
  - vm_compute. reflexivity.
Defined.

(** ** The two branches of [getValidMoves] *)

Lemma fmap_bind_list {A B C} (g : B → C) (f : A → list B) (l : list A) :
  g <$> (l ≫= f) = l ≫= (λ x, g <$> f x).
Proof.
  induction l as [|x l IH]; [done|].
  by rewrite !bind_cons, fmap_app, IH.
Qed.

Lemma isSafe_mirror s : isSafe (mirror s) = isSafe s.
Proof. unfold isSafe, mirror. simpl. apply andb_comm. Qed.

Lemma tryMove_mirror newState m c :
  tryMove (mirror newState) m c = mirror <$> tryMove newState m c.
Proof.
  unfold tryMove. rewrite isSafe_mirror.
  by destruct (boatLoad m c), (isSafe newState).
Qed.

Lemma appendedMoves_mirror s :
  appendedMoves (mirror s) = mirror <$> appendedMoves s.
Proof.
  destruct s as [lm lc rm rc b].
  unfold appendedMoves. destruct b; simpl;
    rewrite fmap_bind_list; apply list_bind_ext; [|done| |done];
    intros m; rewrite fmap_bind_list; apply list_bind_ext; [|done| |done];
    intros c; by rewrite <- tryMove_mirror.
Qed.

Lemma loopsExit_mirror s : loopsExit (mirror s) ↔ loopsExit s.
Proof.
  unfold loopsExit, boatMissionaries, boatCannibals, mirror. simpl.
  by destruct (boatOnLeft s).
Qed.

(** X4: the two branches of [getValidMoves] do the same with the banks
    exchanged: the call on the mirror image of a state returns exactly when
    the call on the state does, and then the successors of the mirror image
    are the mirror images of the successors, in the same order; and
    [isSafe] does not tell a state from its mirror image. *)
Theorem getValidMoves_mirror (currentState : State) :
  isSafe (mirror currentState) = isSafe currentState ∧
  getValidMoves (mirror currentState)
    = (λ moves : list State, mirror <$> moves)
        <$> getValidMoves currentState.
Proof.
  split; [apply isSafe_mirror|].
  destruct (loopsExit_dec currentState) as [Hexit|Hstay].
  - rewrite (getValidMoves_exits currentState Hexit).
    rewrite getValidMoves_exits by by apply loopsExit_mirror.
    simpl. by rewrite appendedMoves_mirror.
  - rewrite (getValidMoves_no_exit currentState Hstay).
    rewrite getValidMoves_no_exit; [done|]. by rewrite loopsExit_mirror.
Qed.

(** ** Boat trips can be undone *)

Lemma transfer_plain s m c :
  plain_counts s → 0 <= m <= boatMissionaries s → 0 <= c <= boatCannibals s →
  plain_counts (transfer s m c).
Proof.
  unfold plain_counts, boatMissionaries, boatCannibals, transfer.
  destruct (boatOnLeft s); simpl; lia.
Qed.

Lemma transfer_back s m c : transfer (transfer s m c) m c = s.
Proof.
  destruct s as [lm lc rm rc b]. unfold transfer.
  destruct b; simpl; f_equal; lia.
Qed.

Lemma plain_counts_closed s t :
  plain_counts s → t ∈ appendedMoves s → plain_counts t.
Proof.
  intros Hs (m & c & Hm & Hc & _ & -> & _)%elem_of_appendedMoves_plain;
    [|done].
  by apply transfer_plain.
Qed.

(** The counts on the boat's bank after a trip are at most the totals. *)
Lemma transfer_exits s m c :
  plain_counts s →
  leftMissionaries s + rightMissionaries s < INT_MAX →
  leftCannibals s + rightCannibals s < INT_MAX →
  0 <= m <= boatMissionaries s → 0 <= c <= boatCannibals s →
  loopsExit (transfer s m c).
Proof.
  unfold plain_counts, loopsExit, boatMissionaries, boatCannibals, transfer.
  intros Hs HM HC Hm Hc. right.
  destruct (boatOnLeft s); simpl in *; lia.
Qed.

(** X5: from a safe state with non-negative counts, fewer than [INT_MAX]
    missionaries and fewer than [INT_MAX] cannibals in all, every boat trip
    that [getValidMoves] offers can be undone by the next one: the call of
    [getValidMoves] on each successor returns, and the state itself is
    among the states it returns. *)
Theorem crossing_reversible (currentState move : State)
    (moves : list State) :
  plain_counts currentState →
  leftMissionaries currentState + rightMissionaries currentState
    < INT_MAX →
  leftCannibals currentState + rightCannibals currentState < INT_MAX →
  isSafe currentState = true →
  getValidMoves currentState = Some moves →
  move ∈ moves →
  ∃ back, getValidMoves move = Some back ∧ currentState ∈ back.
Proof.
  intros Hs HM HC Hsafe [_ ->]%getValidMoves_Some Hmove.
  pose proof (plain_counts_closed _ _ Hs Hmove) as Ht.
  apply elem_of_appendedMoves_plain in Hmove
    as (m & c & Hm & Hc & Hload & -> & _); [|done].
  exists (appendedMoves (transfer currentState m c)). split.
  { by apply getValidMoves_exits, transfer_exits. }
  apply elem_of_appendedMoves_plain; [done|]. exists m, c.
  rewrite transfer_back.
  unfold plain_counts, boatMissionaries, boatCannibals, transfer in *.
  destruct (boatOnLeft currentState); simpl in *;
    (split; [lia|]); (split; [lia|]); done.
Qed.

Lemma crossing_reversible_witness :
  ∃ back,
    getValidMoves (mkState 2 2 1 1 false) = Some back ∧ scenario1 ∈ back.
Proof.
  apply (crossing_reversible scenario1 (mkState 2 2 1 1 false)
           [mkState 3 2 0 1 false; mkState 3 1 0 2 false;
            mkState 2 2 1 1 false]).
  - unfold plain_counts, INT_MAX. simpl. lia.
  - unfold INT_MAX. simpl. lia.
  - unfold INT_MAX. simpl. lia.
  - reflexivity.
  - vm_compute. reflexivity.
  - apply list_elem_of_In. simpl. tauto.
Defined.

(** ** What the search returns and prints *)

(** X6: whenever [solveMissionariesCannibals] returns, from any state, its
    result tells whether a goal state can be reached by boat trips: true
    exactly when a sequence of successors given by [getValidMoves] leads
    from the initial state to a state with nobody on the left bank and the
    boat on the right. *)
Theorem solve_decides_reachability (fuel : nat) (initialState : State)
    (value : bool) :
  solveMissionariesCannibals fuel initialState = Some value →
  value = true ↔
  ∃ goal, rtc crossing initialState goal ∧ isGoal goal = true.
Proof.
  intros Hrun. destruct value.
  - split; [intros _|done]. by apply (search_sound fuel).
  - split; [done|]. intros (goal & Hpath & Hgoal).
    by rewrite (search_complete fuel initialState Hrun goal Hpath) in Hgoal.
Qed.

Lemma solve_decides_reachability_witness :
  false = true ↔ ∃ goal, rtc crossing scenario4 goal ∧ isGoal goal = true.
Proof.
  apply (solve_decides_reachability 64 scenario4 false).
  vm_compute. reflexivity.
Defined.

Lemma Forall_filter_keep {A} (P Q : A → Prop) `{∀ x, Decision (P x)}
    (l : list A) :
  Forall Q l → Forall Q (filter P l).
Proof.
  rewrite !Forall_forall. intros Hl x [_ Hx]%list_elem_of_filter. auto.
Qed.

Lemma moves_safe s : Forall (λ t, isSafe t = true) (appendedMoves s).
Proof.
  apply Forall_forall. intros t Ht.
  by apply appendedMoves_inv in Ht as (m & c & _ & Hsafe & _).
Qed.

Lemma Traced_iteration s0 σ :
  σ = start s0 ∨ Traced s0 σ →
  match iteration σ with
  | Return _ final => Traced s0 final
  | Continue next => Traced s0 next
  | Stuck => True
  end.
Proof.
  intros [->|(shown & Hout & Hshown & Hqueue)].
  { unfold iteration, start. simpl.
    rewrite decide_False by apply not_elem_of_empty.
    destruct (isGoal s0); [by exists []|].
    destruct (getValidMoves s0) as [validMoves|] eqn:Hmoves; [|done].
    apply getValidMoves_Some in Hmoves as [_ ->].
    exists []. simpl. split; [done|]. split; [done|].
    unfold pushUnexplored. simpl. apply Forall_filter_keep.
    apply moves_safe. }
  destruct σ as [[|cur rest] explored out]; unfold iteration; simpl in *.
  { by exists shown. }
  apply Forall_cons in Hqueue as [Hcur Hrest].
  destruct (decide (cur ∈ explored)); [by exists shown|].
  assert (Forall (λ t, isSafe t = true) (shown ++ [cur])) as Hshown'.
  { apply Forall_app. split; [done|]. by apply Forall_singleton. }
  destruct (isGoal cur).
  { exists (shown ++ [cur]). simpl. by rewrite Hout. }
  destruct (getValidMoves cur) as [validMoves|] eqn:Hmoves; [|done].
  apply getValidMoves_Some in Hmoves as [_ ->].
  exists (shown ++ [cur]). simpl. split; [by rewrite Hout|].
  split; [done|].
  unfold pushUnexplored. apply Forall_app. split; [done|].
  apply Forall_filter_keep.
  apply moves_safe.
Qed.

Lemma Traced_run s0 fuel σ value final :
  σ = start s0 ∨ Traced s0 σ →
  run fuel σ = Some (value, final) → Traced s0 final.
Proof.
  revert σ. induction fuel as [|fuel IH]; intros σ Hσ; simpl; [done|].
  pose proof (Traced_iteration s0 σ Hσ) as Hnext.
  destruct (iteration σ) as [v f|next|].
  - by intros [= <- <-].
  - apply IH. by right.
  - done.
Qed.

(** The state printed last by a run that returns true is a goal state. *)
Lemma run_true_last fuel σ final :
  run fuel σ = Some (true, final) →
  ∃ goal, last (printed final) = Some goal ∧ isGoal goal = true.
Proof.
  revert σ. induction fuel as [|fuel IH]; intros σ; simpl; [done|].
  destruct (iteration σ) as [v f|next|] eqn:Hstep; [|apply IH|done].
  intros [= -> ->]. unfold iteration in Hstep.
  destruct σ as [[|cur rest] explored out]; simpl in Hstep; [done|].
  destruct (decide (cur ∈ explored)); [done|].
  destruct (isGoal cur) eqn:Hgoal; [|by destruct (getValidMoves cur)].
  injection Hstep as <-. exists cur. split; [|done].
  simpl. apply last_snoc.
Qed.

(** X7: when the search returns, what it has printed starts with the
    initial state, which is never tested with [isSafe], and goes on with
    safe states only; if it returns true the state printed last is a goal
    state, and if it returns false no printed state is a goal state. *)
Theorem search_trace (fuel : nat) (initialState : State) (value : bool)
    (final : Search) :
  run fuel (start initialState) = Some (value, final) →
  ∃ rest,
    printed final = initialState :: rest ∧
    Forall (λ t, isSafe t = true) rest ∧
    if value
    then ∃ goal, last (printed final) = Some goal ∧ isGoal goal = true
    else Forall (λ t, isGoal t = false) (printed final).
Proof.
  intros Hrun.
  destruct (Traced_run initialState fuel _ _ _ (or_introl eq_refl) Hrun)
    as (rest & Hout & Hsafe & _).
  exists rest. split; [done|]. split; [done|].
  destruct value; [by apply (run_true_last fuel (start initialState))|].
  destruct (run_false_Frontier initialState _ _ _
              (Frontier_start initialState) Hrun) as [[_ Hgoal _] _].
  assert (Inv (λ _, True) final) as [_ _ Hprinted _].
  { apply (during_Inv (λ _, True)) with initialState; [done|done|].
    eapply run_during; [apply during_start|done]. }
  apply Forall_forall. intros t Ht. by apply Hgoal, Hprinted.
Qed.

Lemma search_trace_witness :
  ∃ value final,
    run 20 (start (mkState 1 2 0 0 true)) = Some (value, final) ∧
    ∃ rest,
      printed final = mkState 1 2 0 0 true :: rest ∧
      Forall (λ t, isSafe t = true) rest ∧
      if value
      then ∃ goal, last (printed final) = Some goal ∧ isGoal goal = true
      else Forall (λ t, isGoal t = false) (printed final).
Proof.
  destruct (run 20 (start (mkState 1 2 0 0 true))) as [[value final]|] eqn:E;
    [|vm_compute in E; discriminate].
  exists value, final. split; [done|].
  apply (search_trace 20 (mkState 1 2 0 0 true) value final E).
Defined.

(** X8: when the initial counts are non-negative and their totals fit in
    an [int], every state the search ever queues or explores has
    non-negative counts with the same property: no count of the program
    goes below zero or overflows. *)
Theorem search_counts_nonnegative (initialState : State) (σ : Search)
    (t : State) :
  plain_counts initialState →
  during initialState σ →
  t ∈ statesToExplore σ ∨ t ∈ exploredStates σ →
  0 <= leftMissionaries t <= INT_MAX ∧ 0 <= leftCannibals t <= INT_MAX ∧
  0 <= rightMissionaries t <= INT_MAX ∧ 0 <= rightCannibals t <= INT_MAX.
Proof.
  intros Hs0 Hrun Ht.
  pose proof (during_Inv plain_counts
                (via_crossing _ plain_counts_closed)
                initialState σ Hs0 Hrun) as [Hq He _ _].
  assert (plain_counts t) as Hplain by (destruct Ht; auto).
  unfold plain_counts in Hplain. lia.
Qed.

Lemma search_counts_nonnegative_witness :
  0 <= leftMissionaries (mkState 3 2 0 1 false) <= INT_MAX ∧
  0 <= leftCannibals (mkState 3 2 0 1 false) <= INT_MAX ∧
  0 <= rightMissionaries (mkState 3 2 0 1 false) <= INT_MAX ∧
  0 <= rightCannibals (mkState 3 2 0 1 false) <= INT_MAX.
Proof.
  apply (search_counts_nonnegative scenario1 afterFirstPass).
  - unfold plain_counts, INT_MAX. simpl. lia.
  - apply (during_continue scenario1 (start scenario1)).
    + apply during_start.
    + vm_compute. reflexivity.
  - left. apply list_elem_of_In. vm_compute. left. reflexivity.
Defined.

(** ** A bound on the number of passes *)

Lemma size_list_to_set_le (l : list State) :
  (size (list_to_set (C:=gset State) l) <= length l)%nat.
Proof.
  induction l as [|x l IH].
  - rewrite list_to_set_nil, size_empty. done.
  - rewrite list_to_set_cons, size_union_alt, size_singleton. simpl length.
    assert (size (list_to_set (C:=gset State) l ∖ {[x]})
            <= size (list_to_set (C:=gset State) l))%nat.
    { apply subseteq_size. intros t [Ht _]%elem_of_difference. done. }
    lia.
Qed.

Lemma size_unexplored (universe explored : gset State) cur :
  cur ∈ universe → cur ∉ explored →
  (size (universe ∖ (explored ∪ {[cur]})) < size (universe ∖ explored))%nat.
Proof.
  intros Hin Hnew. apply subset_size. split.
  - intros t [Ht Hne]%elem_of_difference. apply elem_of_difference.
    split; [done|]. intros He. apply Hne, elem_of_union. by left.
  - intros Hsup. specialize (Hsup cur).
    rewrite !elem_of_difference, elem_of_union, elem_of_singleton in Hsup.
    tauto.
Qed.

Section Passes.
Variable space : State → Prop.
Variable universe : gset State.
Hypothesis space_closed : ∀ s t, space s → crossing s t → space t.
Hypothesis space_universe : ∀ t, space t → t ∈ universe.
Hypothesis space_int : ∀ t, space t → int_counts t.
Hypothesis space_exit : ∀ t, space t → loopsExit t.

(** Every pass that does not return leaves less to do: it takes one state
    from the queue, and when it explores that state it appends at most
    five. *)
Lemma run_within fuel σ :
  Inv space σ → (workLeft universe σ < fuel)%nat →
  ∃ value final, run fuel σ = Some (value, final).
Proof.
  revert σ. induction fuel as [|fuel IH]; [lia|].
  intros [[|cur rest] explored out] HI Hwork; unfold workLeft in *;
    simpl in *.
  { by exists false, (mkSearch [] explored out). }
  assert (space cur) as Hcur by (apply HI; simpl; by left).
  pose proof (iteration_Inv space space_closed _ HI) as Hnext.
  unfold iteration in *. simpl in *.
  destruct (decide (cur ∈ explored)) as [Hin|Hnew].
  { apply IH; [done|]. unfold workLeft. simpl. lia. }
  destruct (isGoal cur); [by eexists _, _|].
  rewrite (getValidMoves_exits cur (space_exit _ Hcur)) in *.
  apply IH; [done|]. unfold workLeft, pushUnexplored. simpl.
  pose proof (size_unexplored universe explored cur
                (space_universe _ Hcur) Hnew).
  pose proof (proj2 (moves_NoDup_five cur (space_int _ Hcur))).
  pose proof (length_filter (λ move, move ∉ explored ∪ {[cur]})
                (appendedMoves cur)).
  rewrite length_app. lia.
Qed.
End Passes.

Lemma bankStates_int M C t : t ∈ bankStates M C → int_counts t.
Proof.
  intros (lv & cv & b & _ & _ & ->)%elem_of_bankStates.
  unfold int_counts, bankState. simpl. auto using int32_is_int.
Qed.

(** X9: from an initial state with non-negative counts, [M] missionaries
    and [C] cannibals in all, both below [INT_MAX], the loop of
    [solveMissionariesCannibals] returns within
    [12 * (M + 1) * (C + 1) + 2] passes. *)
Theorem search_pass_bound (initialState : State) :
  0 <= leftMissionaries initialState →
  0 <= leftCannibals initialState →
  0 <= rightMissionaries initialState →
  0 <= rightCannibals initialState →
  leftMissionaries initialState + rightMissionaries initialState < INT_MAX →
  leftCannibals initialState + rightCannibals initialState < INT_MAX →
  ∃ value,
    solveMissionariesCannibals
      (passBound (leftMissionaries initialState
                  + rightMissionaries initialState)
                 (leftCannibals initialState + rightCannibals initialState))
      initialState
    = Some value.
Proof.
  intros Hlm Hlc Hrm Hrc HMlt HClt.
  set (M := leftMissionaries initialState + rightMissionaries initialState)
    in *.
  set (C := leftCannibals initialState + rightCannibals initialState) in *.
  assert (0 <= M <= 2 * INT_MAX) as HM by (unfold M, INT_MAX in *; lia).
  assert (0 <= C <= 2 * INT_MAX) as HC by (unfold C, INT_MAX in *; lia).
  destruct (run_within (λ t, t ∈ bankStates M C)
              (list_to_set (bankStates M C))
              (via_crossing _ (λ s t, bankStates_closed M C s t HM HC))
              (λ t Ht, proj2 (elem_of_list_to_set t _) Ht)
              (bankStates_int M C)
              (λ t, bankStates_exit M C t (conj (proj1 HM) HMlt)
                                          (conj (proj1 HC) HClt))
              (passBound M C) (start initialState))
    as (value & final & Hrun).
  - apply Inv_start. apply initial_in_bankStates; unfold M, C in *; lia.
  - unfold workLeft, passBound. simpl.
    pose proof (size_list_to_set_le (bankStates M C)) as Hsize.
    pose proof (length_bankStates M C (proj1 HM) (proj1 HC)) as Hlen.
    assert (size (list_to_set (C:=gset State) (bankStates M C) ∖ ∅)
            <= size (list_to_set (C:=gset State) (bankStates M C)))%nat
      as Hdiff.
    { apply subseteq_size. intros t [Ht _]%elem_of_difference. done. }
    nia.
  - exists value. unfold solveMissionariesCannibals. by rewrite Hrun.
Qed.

Lemma search_pass_bound_witness :
  ∃ value,
    solveMissionariesCannibals (passBound (3 + 0) (3 + 0)) scenario1
    = Some value.
Proof.
  apply (search_pass_bound scenario1); unfold INT_MAX; simpl; lia.
Defined.

(** ** The command line, further *)

Lemma scenario1_run :
  ∃ final, run 16 (start scenario1) = Some (true, final).
Proof.
  assert (fst <$> run 16 (start scenario1) = Some true) as Hfst
    by (vm_compute; reflexivity).
  destruct (run 16 (start scenario1)) as [[value final]|]; [|done].
  injection Hfst as ->. by exists final.
Qed.

(** How [main] can end inside the [switch]. *)
Lemma readArguments_ended stoi argv initialState ended :
  readArguments stoi argv = (initialState, Some ended) →
  ended = mkProcess [] Uncaught ∨
  ended = mkProcess [TextLine "Cannibal count cannot be negative."] (Exit 1) ∨
  ended = mkProcess [TextLine "Missionary count cannot be negative."] (Exit 1).
Proof.
  assert (∀ s arg1,
            caseTwo stoi s arg1 = (initialState, Some ended) →
            ended = mkProcess [] Uncaught ∨
            ended = mkProcess
                      [TextLine "Missionary count cannot be negative."]
                      (Exit 1)) as Htwo.
  { intros s arg1. unfold caseTwo.
    destruct (stoi arg1) as [m|]; [|intros [= _ <-]; by left].
    destruct (m <? 0); [|done]. intros [= _ <-]. by right. }
  unfold readArguments.
  destruct argv as [|prog [|arg1 [|arg2 [|? ?]]]]; try done.
  - intros [H|H]%Htwo; auto.
  - destruct (stoi arg2) as [c|]; [|intros [= _ <-]; by left].
    destruct (c <? 0).
    + intros [= _ <-]. right. by left.
    + intros [H|H]%Htwo; auto.
Qed.

(** X10: with any number of command-line arguments other than one or two,
    [main] does not look at them: it searches from 3 missionaries and 3
    cannibals on the left bank, prints "Solution found!" last and returns
    0, whatever the arguments are. *)
Theorem main_other_argument_counts (stoi : string → option Z)
    (argv : list string) :
  length argv ≠ 2%nat → length argv ≠ 3%nat →
  readArguments stoi argv = (mkState 3 3 0 0 true, None) ∧
  ∃ final, ∀ extra,
    main stoi (16 + extra) argv
      = Some (mkProcess
                ((StateLine <$> printed final) ++
                 [TextLine "Solution found!"])
                (Exit 0)).
Proof.
  intros H2 H3.
  assert (readArguments stoi argv = (mkState 3 3 0 0 true, None)) as Hargs.
  { by destruct argv as [|prog [|arg1 [|arg2 [|? ?]]]]. }
  split; [done|].
  destruct scenario1_run as [final Hrun]. exists final. intros extra.
  unfold main. rewrite Hargs. unfold scenario1 in Hrun.
  by rewrite (run_mono _ extra _ _ Hrun).
Qed.

Lemma main_other_argument_counts_witness :
  readArguments decimalStoi ["solver"; "-1"; "x"; "7"]
    = (mkState 3 3 0 0 true, None) ∧
  ∃ final, ∀ extra,
    main decimalStoi (16 + extra) ["solver"; "-1"; "x"; "7"]
      = Some (mkProcess
                ((StateLine <$> printed final) ++
                 [TextLine "Solution found!"])
                (Exit 0)).
Proof.
  apply (main_other_argument_counts decimalStoi
           ["solver"; "-1"; "x"; "7"]); simpl; lia.
Defined.

(** X11: [main] reads the cannibal argument before the missionary
    argument.  An argument that [std::stoi] rejects ends the process
    through the exception, with nothing printed; but with two arguments a
    negative cannibal count makes [main] return 1 before the missionary
    argument is parsed at all, even if that one is malformed. *)
Theorem main_parse_order (stoi : string → option Z) (fuel : nat)
    (prog arg1 arg2 : string) :
  (stoi arg1 = None →
   main stoi fuel [prog; arg1] = Some (mkProcess [] Uncaught)) ∧
  (stoi arg2 = None →
   main stoi fuel [prog; arg1; arg2] = Some (mkProcess [] Uncaught)) ∧
  (∀ cannibals,
     stoi arg2 = Some cannibals → cannibals < 0 →
     main stoi fuel [prog; arg1; arg2]
       = Some (mkProcess [TextLine "Cannibal count cannot be negative."]
                         (Exit 1))) ∧
  (∀ cannibals,
     stoi arg2 = Some cannibals → 0 <= cannibals → stoi arg1 = None →
     main stoi fuel [prog; arg1; arg2] = Some (mkProcess [] Uncaught)).
Proof.
  unfold main, readArguments, caseTwo. repeat split.
  - by intros ->.
  - by intros ->.
  - intros c -> Hneg. by rewrite (proj2 (Z.ltb_lt c 0) Hneg).
  - intros c -> Hpos ->. by rewrite (proj2 (Z.ltb_ge c 0) Hpos).
Qed.

(** X12: however [main] is called, if it ends it does so in one of three
    ways: through an exception of [std::stoi] with nothing printed; with
    status 1 and exactly one of the two error messages printed, and no
    state; or with status 0 after a search that returned, whose states and
    verdict it has printed. *)
Theorem main_endings (stoi : string → option Z) (fuel : nat)
    (argv : list string) (ended : Process) :
  main stoi fuel argv = Some ended →
  (ending ended = Uncaught ∧ stdout ended = []) ∨
  (ending ended = Exit 1 ∧
   (stdout ended = [TextLine "Cannibal count cannot be negative."] ∨
    stdout ended = [TextLine "Missionary count cannot be negative."])) ∨
  (ending ended = Exit 0 ∧
   ∃ value final,
     run fuel (start (readArguments stoi argv).1) = Some (value, final) ∧
     stdout ended
       = (StateLine <$> printed final) ++
         [TextLine (if value then "Solution found!"
                    else "No solution exists.")]).
Proof.
  unfold main.
  destruct (readArguments stoi argv) as [s0 [early|]] eqn:Hargs.
  - intros [= <-].
    destruct (readArguments_ended _ _ _ _ Hargs) as [-> | [-> | ->]]; auto.
  - simpl. destruct (run fuel (start s0)) as [[value final]|]; [|done].
    intros [= <-]. right. right. split; [done|]. by exists value, final.
Qed.

Lemma main_endings_witness :
  (ending (mkProcess [] Uncaught) = Uncaught ∧
   stdout (mkProcess [] Uncaught) = []) ∨
  (ending (mkProcess [] Uncaught) = Exit 1 ∧
   (stdout (mkProcess [] Uncaught)
      = [TextLine "Cannibal count cannot be negative."] ∨
    stdout (mkProcess [] Uncaught)
      = [TextLine "Missionary count cannot be negative."])) ∨
  (ending (mkProcess [] Uncaught) = Exit 0 ∧
   ∃ value final,
     run 0 (start (readArguments decimalStoi ["solver"; "three"]).1)
       = Some (value, final) ∧
     stdout (mkProcess [] Uncaught)
       = (StateLine <$> printed final) ++
         [TextLine (if value then "Solution found!"
                    else "No solution exists.")]).
Proof.
  apply (main_endings decimalStoi 0 ["solver"; "three"]).
  vm_compute. reflexivity.
Defined.

(** X13: the verdict of [main] is right.  When [main] returns 0, the last
    line it printed is "Solution found!" and a goal state can be reached by
    boat trips from the initial state it read, or the last line is "No
    solution exists." and no goal state can be reached. *)
Theorem main_verdict (stoi : string → option Z) (fuel : nat)
    (argv : list string) (ended : Process) :
  main stoi fuel argv = Some ended →
  ending ended = Exit 0 →
  (last (stdout ended) = Some (TextLine "Solution found!") ∧
   ∃ goal, rtc crossing (readArguments stoi argv).1 goal ∧
           isGoal goal = true) ∨
  (last (stdout ended) = Some (TextLine "No solution exists.") ∧
   ∀ t, rtc crossing (readArguments stoi argv).1 t → isGoal t = false).
Proof.
  unfold main.
  destruct (readArguments stoi argv) as [s0 [early|]] eqn:Hargs.
  - intros [= <-] Hzero.
    destruct (readArguments_ended _ _ _ _ Hargs) as [-> | [-> | ->]]; done.
  - simpl. destruct (run fuel (start s0)) as [[value final]|] eqn:Hrun;
      [|done].
    intros [= <-] _. unfold report. simpl. rewrite last_snoc.
    assert (solveMissionariesCannibals fuel s0 = Some value) as Hsolve.
    { unfold solveMissionariesCannibals. by rewrite Hrun. }
    destruct value.
    + left. split; [done|]. by apply (search_sound fuel).
    + right. split; [done|]. by apply (search_complete fuel).
Qed.

Lemma main_verdict_witness :
  ∃ ended,
    main decimalStoi 64 ["solver"; "4"; "4"] = Some ended ∧
    ((last (stdout ended) = Some (TextLine "Solution found!") ∧
      ∃ goal,
        rtc crossing (readArguments decimalStoi ["solver"; "4"; "4"]).1 goal ∧
        isGoal goal = true) ∨
     (last (stdout ended) = Some (TextLine "No solution exists.") ∧
      ∀ t, rtc crossing (readArguments decimalStoi ["solver"; "4"; "4"]).1 t →
           isGoal t = false)).
Proof.
  destruct (main decimalStoi 64 ["solver"; "4"; "4"]) as [ended|] eqn:E;
    [|vm_compute in E; discriminate].
  exists ended. split; [done|].
  apply (main_verdict decimalStoi 64 ["solver"; "4"; "4"] ended E).
  revert E. vm_compute. by intros [= <-].
Defined.

(** ** The hash of a state *)

Lemma size_t_bound z : 0 <= size_t z < 18446744073709551616.
Proof. unfold size_t. apply Z.mod_pos_bound. lia. Qed.

Lemma lxor_bound a b :
  0 <= a < 18446744073709551616 → 0 <= b < 18446744073709551616 →
  0 <= Z.lxor a b < 18446744073709551616.
Proof.
  intros Ha Hb.
  assert (0 <= Z.lxor a b) as Hpos by (apply Z.lxor_nonneg; lia).
  split; [done|].
  destruct (Z.eq_dec (Z.lxor a b) 0) as [->|Hnz]; [lia|].
  change 18446744073709551616 with (2 ^ 64) in *.
  apply Z.log2_lt_pow2; [lia|].
  assert (Z.log2 a < 64).
  { destruct (Z.eq_dec a 0) as [->|]; [simpl; lia|].
    apply Z.log2_lt_pow2; lia. }
  assert (Z.log2 b < 64).
  { destruct (Z.eq_dec b 0) as [->|]; [simpl; lia|].
    apply Z.log2_lt_pow2; lia. }
  pose proof (Z.log2_lxor a b). lia.
Qed.

Lemma lxor_cancel x u v : Z.lxor x u = Z.lxor x v → u = v.
Proof.
  intros Heq. apply (f_equal (Z.lxor x)) in Heq.
  by rewrite <- !Z.lxor_assoc, Z.lxor_nilpotent, !Z.lxor_0_l in Heq.
Qed.

(** X14: [StateHash] agrees with [State::operator==], as an unordered set
    needs: states that compare equal have the same hash.  The hash is a
    [size_t] whenever [std::hash<int>] yields one, and two states that
    differ in the side of the boat only never have the same hash. *)
Theorem StateHash_contract (hashInt : Z → Z) (a b : State) :
  (∀ z, 0 <= hashInt z < 18446744073709551616) →
  (State_eq a b = true → StateHash hashInt a = StateHash hashInt b) ∧
  0 <= StateHash hashInt a < 18446744073709551616 ∧
  StateHash hashInt
    (mkState (leftMissionaries a) (leftCannibals a) (rightMissionaries a)
             (rightCannibals a) (negb (boatOnLeft a)))
    ≠ StateHash hashInt a.
Proof.
  intros Hhash. split; [|split].
  - by intros ->%State_eq_spec.
  - unfold StateHash. repeat apply lxor_bound;
      auto using size_t_bound.
  - unfold StateHash.
    cbn [leftMissionaries leftCannibals rightMissionaries rightCannibals
         boatOnLeft].
    intros Heq%lxor_cancel.
    destruct (boatOnLeft a); vm_compute in Heq; discriminate.
Qed.

Lemma StateHash_contract_witness :
  (State_eq scenario1 scenario1 = true →
   StateHash size_t scenario1 = StateHash size_t scenario1) ∧
  0 <= StateHash size_t scenario1 < 18446744073709551616 ∧
  StateHash size_t
    (mkState (leftMissionaries scenario1) (leftCannibals scenario1)
             (rightMissionaries scenario1) (rightCannibals scenario1)
             (negb (boatOnLeft scenario1)))
    ≠ StateHash size_t scenario1.
Proof.
  apply (StateHash_contract size_t scenario1 scenario1). apply size_t_bound.
Defined.
